(** * Dice-Game: a shallow embedding of [game.js] and of the second
    variant of the program ([part_000]) *)

From Stdlib Require Import List String Ascii ZArith QArith Qround Qabs Lia Lqa Bool.
From Stdlib Require Import Strings.Byte DecimalString Permutation.
From Stdlib Require Decimal DecimalPos.
Import ListNotations.

(* ================================================================= *)
(** ** Binary64 rounding *)
(* ================================================================= *)

(** A JavaScript number is an IEEE 754 binary64 value. [a / b] and [a * b]
    on two such numbers, and [Number(string)], give the exact value rounded
    to the nearest binary64 value, ties to an even significand. [to_double]
    rounds a rational value; it has no upper exponent bound, so a value at
    or beyond the overflow threshold is rounded to a value of magnitude at
    least 2^1024, which its callers turn into an infinity. *)

Module Binary64.

Local Open Scope Z_scope.

(** Round-half-even of [a / b] for [b > 0]. *)
Definition rne_div (a b : Z) : Z :=
  let q := a / b in
  let r := a mod b in
  match Z.compare (2 * r) b with
  | Lt => q
  | Gt => q + 1
  | Eq => if Z.even q then q else q + 1
  end.

(** [n / d] divided by [2^e], as a fraction of two integers. *)
Definition scaled (n d e : Z) : Z * Z :=
  (n * 2 ^ Z.max 0 (- e), d * 2 ^ Z.max 0 e).

(** [2^e] as a rational. *)
Definition pow2 (e : Z) : Q :=
  inject_Z (2 ^ Z.max 0 e) / inject_Z (2 ^ Z.max 0 (- e)).

(** The exponent of the last significand bit of [n / d > 0]: the [e] with
    [2^52 <= n / d / 2^e < 2^53], or [-1074] for a subnormal value. *)
Definition binexp (n d : Z) : Z :=
  let e0 := Z.log2 n - Z.log2 d - 53 in
  let '(a, b) := scaled n d e0 in
  Z.max (if 2 ^ 53 * b <=? a then e0 + 1 else e0) (-1074).

(** [n / d > 0] rounded to binary64: a 53-bit significand times [2^e]. *)
Definition to_double_pos (n d : Z) : Q :=
  let e := binexp n d in
  let '(a, b) := scaled n d e in
  inject_Z (rne_div a b) * pow2 e.

(** The binary64 value nearest to [x]. *)
Definition to_double (x : Q) : Q :=
  match Qnum x with
  | Z0 => 0
  | Zpos n => to_double_pos (Zpos n) (Zpos (Qden x))
  | Zneg n => - to_double_pos (Zpos n) (Zpos (Qden x))
  end.

End Binary64.

Import Binary64.

(* ================================================================= *)
(** ** JavaScript strings and number conversions *)
(* ================================================================= *)

Module Js.

Local Open Scope Z_scope.

(** A JavaScript number that is an integer or [NaN]; every number the
    sampler, [parseInt] and the throws compute is one of these. The
    integers are mathematical integers: the program's own integers (draws
    below 2^32, indices, face counts, the user's answers) are exact
    binary64 values, far below 2^53. *)
Inductive jsval := JInt (z : Z) | JNaN.

(** A JavaScript number produced by [Number(string)]: a finite binary64
    value written [m * 10^e], an infinity, or [NaN]. *)
Inductive jsnum := NFin (m e : Z) | NInf (negative : bool) | NNaN.

Definition code (c : ascii) : Z := Z.of_nat (nat_of_ascii c).

(** WhiteSpace and LineTerminator code units of the ASCII range. *)
Definition is_ws (c : ascii) : bool :=
  let n := code c in ((9 <=? n) && (n <=? 13)) || (n =? 32).

Fixpoint drop_ws (l : list ascii) : list ascii :=
  match l with
  | c :: r => if is_ws c then drop_ws r else l
  | [] => []
  end.

(** [String.prototype.trim] *)
Definition trim_list (l : list ascii) : list ascii :=
  rev (drop_ws (rev (drop_ws l))).

Definition trim (s : string) : string :=
  string_of_list_ascii (trim_list (list_ascii_of_string s)).

Definition lower_char (c : ascii) : ascii :=
  let n := code c in
  if (65 <=? n) && (n <=? 90) then ascii_of_nat (Z.to_nat (n + 32)) else c.

(** [String.prototype.toLowerCase] *)
Definition toLowerCase (s : string) : string :=
  string_of_list_ascii (map lower_char (list_ascii_of_string s)).

(** Value of a digit in radices up to 36. *)
Definition digit_val (c : ascii) : option Z :=
  let n := code c in
  if (48 <=? n) && (n <=? 57) then Some (n - 48)
  else if (97 <=? n) && (n <=? 122) then Some (n - 87)
  else if (65 <=? n) && (n <=? 90) then Some (n - 55)
  else None.

(** Longest prefix of digits of radix [r], and what follows it. *)
Fixpoint take_digits (r : Z) (l : list ascii) : list Z * list ascii :=
  match l with
  | c :: rest =>
      match digit_val c with
      | Some d =>
          if d <? r then let (ds, tl) := take_digits r rest in (d :: ds, tl)
          else ([], l)
      | None => ([], l)
      end
  | [] => ([], [])
  end.

Definition digits_value (r : Z) (ds : list Z) : Z :=
  fold_left (fun acc d => acc * r + d) ds 0.

Definition sign (l : list ascii) : Z * list ascii :=
  match l with
  | c :: r =>
      if Ascii.eqb c "-"%char then (-1, r)
      else if Ascii.eqb c "+"%char then (1, r)
      else (1, l)
  | [] => (1, l)
  end.

(** [parseInt(string, radix)] (ECMA-262, 19.2.5); [radix = 0] stands for
    an absent radix ([ToInt32(undefined) = 0]). The result is the exact
    integer value of the digits: JavaScript rounds it to binary64, which
    agrees with it below 2^53 only (above, not every integer is a number,
    and from about 1.8e308 on the result is [Infinity]). *)
Definition parseInt (s : string) (radix : Z) : jsval :=
  let '(sg, l1) := sign (drop_ws (list_ascii_of_string s)) in
  if negb (radix =? 0) && ((radix <? 2) || (36 <? radix)) then JNaN
  else
    let strip := (radix =? 0) || (radix =? 16) in
    let R := if radix =? 0 then 10 else radix in
    let '(R, l2) :=
      if strip then
        match l1 with
        | z :: x :: r =>
            if Ascii.eqb z "0"%char && (Ascii.eqb x "x"%char || Ascii.eqb x "X"%char)
            then (16, r) else (R, l1)
        | _ => (R, l1)
        end
      else (R, l1) in
    match fst (take_digits R l2) with
    | [] => JNaN
    | ds => JInt (sg * digits_value R ds)
    end.

(** Exponent part of a StrDecimalLiteral, after the [e]: it must end the
    string. *)
Definition parse_exponent (l : list ascii) : option Z :=
  let '(sg, l1) := sign l in
  match take_digits 10 l1 with
  | (d :: ds, []) => Some (sg * digits_value 10 (d :: ds))
  | _ => None
  end.

(** StrUnsignedDecimalLiteral without [Infinity], as [(m, e)] for [m * 10^e]. *)
Definition parse_unsigned_decimal (l : list ascii) : option (Z * Z) :=
  let '(ip, r1) := take_digits 10 l in
  let '(fp, r2) :=
    match r1 with
    | c :: r => if Ascii.eqb c "."%char then take_digits 10 r else ([], r1)
    | [] => ([], [])
    end in
  match ip ++ fp with
  | [] => None
  | ds =>
      let m := digits_value 10 ds in
      let e0 := - Z.of_nat (List.length fp) in
      match r2 with
      | [] => Some (m, e0)
      | c :: r =>
          if Ascii.eqb c "e"%char || Ascii.eqb c "E"%char then
            match parse_exponent r with
            | Some x => Some (m, e0 + x)
            | None => None
            end
          else None
      end
  end.

(** NonDecimalIntegerLiteral: [0x], [0o] or [0b] and digits up to the end. *)
Definition parse_non_decimal (l : list ascii) : option Z :=
  match l with
  | z :: p :: r =>
      let R :=
        if negb (Ascii.eqb z "0"%char) then 0
        else if Ascii.eqb p "x"%char || Ascii.eqb p "X"%char then 16
        else if Ascii.eqb p "o"%char || Ascii.eqb p "O"%char then 8
        else if Ascii.eqb p "b"%char || Ascii.eqb p "B"%char then 2
        else 0 in
      if R =? 0 then None
      else match take_digits R r with
           | (d :: ds, []) => Some (digits_value R (d :: ds))
           | _ => None
           end
  | _ => None
  end.

(** The rational value [m * 10^e]. *)
Definition dec_value (m e : Z) : Q :=
  if 0 <=? e then inject_Z (m * 10 ^ e) else (m # Z.to_pos (10 ^ (- e)))%Q.

(** The number of a rational [x]: [x] rounded to binary64, an infinity of
    the sign [negative] when the rounded magnitude reaches 2^1024. A finite
    binary64 value is [n / 2^j] in lowest terms, that is
    [(n * 5^j) * 10^(-j)]. [-0] is written as [0]. *)
Definition number_of_Q (negative : bool) (x : Q) : jsnum :=
  let r := Qred (to_double x) in
  if Qle_bool (inject_Z (2 ^ 1024)) (Qabs r) then NInf negative
  else let j := Z.log2 (Zpos (Qden r)) in NFin (Qnum r * 5 ^ j) (- j).

(** [Number(string)] (StringToNumber, ECMA-262 7.1.4.1.1). *)
Definition toNumber (s : string) : jsnum :=
  match trim_list (list_ascii_of_string s) with
  | [] => NFin 0 0
  | l =>
      match parse_non_decimal l with
      | Some z => number_of_Q false (inject_Z z)
      | None =>
          let '(sg, l1) := sign l in
          if string_dec (string_of_list_ascii l1) "Infinity" then NInf (sg <? 0)
          else match parse_unsigned_decimal l1 with
               | Some (m, e) => number_of_Q (sg <? 0) (dec_value (sg * m) e)
               | None => NNaN
               end
      end
  end.

(** Global [isNaN] applied to a string. *)
Definition isNaN (s : string) : bool :=
  match toNumber s with NNaN => true | _ => false end.

(** [Number.isInteger] *)
Definition isInteger (n : jsnum) : bool :=
  match n with
  | NFin m e => if 0 <=? e then true else Z.rem m (10 ^ (- e)) =? 0
  | _ => false
  end.

Fixpoint split_comma_list (l : list ascii) : list (list ascii) :=
  match l with
  | [] => [[]]
  | c :: r =>
      let parts := split_comma_list r in
      if Ascii.eqb c ","%char then [] :: parts
      else match parts with
           | p :: ps => (c :: p) :: ps
           | [] => [[c]]
           end
  end.

(** [string.split(',')] *)
Definition split_comma (s : string) : list string :=
  map string_of_list_ascii (split_comma_list (list_ascii_of_string s)).

End Js.

Import Js.


(* ================================================================= *)
(** ** Dice parsing: [DiceParser.parseDice] (game.js) and
       [DiceConfiguration] / [Dice] (part_000) *)
(* ================================================================= *)

Module Parse.

(** Each error ends the program: [process.exit(1)] in game.js, a thrown
    [Error] in part_000. *)
Inductive dice_error :=
| TooFewDice
| NonIntegerValue (die : nat) (token : string)
| WrongValueCount (die : nat)
| InvalidDie.

Inductive result (A : Type) := Ok (a : A) | Err (e : dice_error).
Arguments Ok {A} a.
Arguments Err {A} e.

(** game.js: [arg.split(',').map(value => { if (isNaN(value)) exit; return parseInt(value, 10); })] *)
Fixpoint parse_values (die : nat) (toks : list string) : result (list jsval) :=
  match toks with
  | [] => Ok []
  | t :: ts =>
      if isNaN t then Err (NonIntegerValue die t)
      else match parse_values die ts with
           | Ok vs => Ok (parseInt t 10 :: vs)
           | Err e => Err e
           end
  end.

(** game.js: the [args.map((arg, index) => ...)] of [parseDice]. *)
Fixpoint parse_args (index : nat) (args : list string) : result (list (list jsval)) :=
  match args with
  | [] => Ok []
  | a :: rest =>
      match parse_values (S index) (split_comma a) with
      | Err e => Err e
      | Ok values =>
          if negb (List.length values =? 6)%nat then Err (WrongValueCount (S index))
          else match parse_args (S index) rest with
               | Ok ds => Ok (values :: ds)
               | Err e => Err e
               end
      end
  end.

(** game.js: [DiceParser.parseDice] *)
Definition parseDice (args : list string) : result (list (list jsval)) :=
  if (List.length args <? 3)%nat then Err TooFewDice else parse_args 0 args.

(** part_000: [new Dice(values)] *)
Definition new_Dice (values : list jsnum) : result (list jsnum) :=
  if negb (List.length values =? 6)%nat || negb (forallb isInteger values)
  then Err InvalidDie else Ok values.

Fixpoint parse_configs (args : list string) : result (list (list jsnum)) :=
  match args with
  | [] => Ok []
  | a :: rest =>
      match new_Dice (map toNumber (split_comma a)) with
      | Err e => Err e
      | Ok d =>
          match parse_configs rest with
          | Ok ds => Ok (d :: ds)
          | Err e => Err e
          end
      end
  end.

(** part_000: [new DiceConfiguration(args)] ([parseArgs]) *)
Definition DiceConfiguration (args : list string) : result (list (list jsnum)) :=
  if (List.length args <? 3)%nat then Err TooFewDice else parse_configs args.

End Parse.

Import Parse.


(* ================================================================= *)
(** ** Probability engines *)
(* ================================================================= *)

Module Prob.

Local Open Scope Z_scope.

(** [[f(0, x0); f(1, x1); ...]], the index-passing [forEach]/[map]. *)
Fixpoint imap_from {A B} (f : nat -> A -> B) (i : nat) (l : list A) : list B :=
  match l with
  | [] => []
  | x :: r => f i x :: imap_from f (S i) r
  end.

Definition imap {A B} (f : nat -> A -> B) (l : list A) : list B := imap_from f 0 l.

(** [Number.prototype.toFixed(f)] on a non-negative binary64 value [x]
    below 10^21, as the integer count of units of [10^-f]: the integer [n]
    for which [n / 10^f - x] is closest to zero, the larger [n] on a tie.
    [x] is the exact value of the binary64 number. *)
Definition to_fixed (f : nat) (x : Q) : Z :=
  Qfloor (x * inject_Z (10 ^ Z.of_nat f) + (1 # 2)).

(** game.js, [calculateProbabilities]: the nested [forEach] counting
    [v1 > v2]. *)
Definition count_wins (v1s v2s : list Z) : nat :=
  fold_left (fun wins v1 =>
    fold_left (fun wins v2 => if v2 <? v1 then S wins else wins) v2s wins) v1s 0%nat.

(** game.js: [wins] and [total = d1.values.length * d2.values.length]. *)
Definition gj_counts (d1 d2 : list Z) : nat * nat :=
  (count_wins d1 d2, (List.length d1 * List.length d2)%nat).

(** An entry of the game.js table: [0] on the diagonal, the string
    [(wins / total).toFixed(4)] elsewhere ([NaN] when [total = 0]); the
    division is binary64. *)
Inductive gj_cell := GZero | GFixed (n : Z) | GNaN.

Definition gj_cell_of (d1 d2 : list Z) : gj_cell :=
  let '(wins, total) := gj_counts d1 d2 in
  if (total =? 0)%nat then GNaN
  else GFixed (to_fixed 4 (to_double (inject_Z (Z.of_nat wins) / inject_Z (Z.of_nat total)))).

(** game.js: [ProbabilityCalculator.calculateProbabilities] *)
Definition calculateProbabilities (diceList : list (list Z)) : list (list gj_cell) :=
  imap (fun i d1 =>
    imap (fun j d2 => if (i =? j)%nat then GZero else gj_cell_of d1 d2) diceList)
    diceList.

(** part_000: the result of [calculateProbability]; [fraction] is the
    string [`${wins}/${total}`], kept as its two numbers, and [percentage]
    is [(probability * 100).toFixed(2)] ([None] for ["NaN"]), where
    [probability = wins / total]; both operations are binary64. *)
Record prob_result := { fraction : nat * nat; percentage : option Z }.

(** part_000: [ProbabilityCalculator.calculateProbability] *)
Definition calculateProbability (dice1 dice2 : list Z) : prob_result :=
  let '(wins, total) :=
    fold_left (fun acc roll1 =>
      fold_left (fun '(wins, total) roll2 =>
        (if roll2 <? roll1 then S wins else wins, S total)) dice2 acc)
      dice1 (0%nat, 0%nat) in
  {| fraction := (wins, total);
     percentage :=
       if (total =? 0)%nat then None
       else Some (to_fixed 2 (to_double
              (to_double (inject_Z (Z.of_nat wins) / inject_Z (Z.of_nat total))
               * inject_Z 100))) |}.

(** part_000: a cell of [ProbabilityTable.displayTable]; the diagonal shows
    the constant [(1 / 3 * 100).toFixed(2)]. *)
Inductive p0_cell := PDiag | PCell (r : prob_result).

Definition probability_table (diceSet : list (list Z)) : list (list p0_cell) :=
  imap (fun i dice1 =>
    imap (fun j dice2 =>
      if (i =? j)%nat then PDiag else PCell (calculateProbability dice1 dice2)) diceSet)
    diceSet.

(** The spec's counts over the Cartesian product [d1 x d2]. *)
Definition spec_wins (d1 d2 : list Z) : nat :=
  List.length (filter (fun '(a, b) => b <? a) (list_prod d1 d2)).

Definition spec_ties (d1 d2 : list Z) : nat :=
  List.length (filter (fun '(a, b) => a =? b) (list_prod d1 d2)).

Definition cell (i j : nat) {A} (t : list (list A)) : option A :=
  match nth_error t i with Some row => nth_error row j | None => None end.

End Prob.

Import Prob.

Definition die1 : list Z := [2; 2; 4; 4; 9; 9]%Z.
Definition die2 : list Z := [1; 1; 6; 6; 8; 8]%Z.
Definition die3 : list Z := [3; 3; 5; 5; 7; 7]%Z.


(* ================================================================= *)
(** ** The fair-random protocol: [FairRandom] and [DiceGame] (game.js) *)
(* ================================================================= *)

Module Game.

Local Open Scope Z_scope.

(** [readUInt32BE(0)] of four bytes. *)
Definition be32 (b0 b1 b2 b3 : byte) : Z :=
  Z.of_N (Byte.to_N b0) * 2 ^ 24 + Z.of_N (Byte.to_N b1) * 2 ^ 16
  + Z.of_N (Byte.to_N b2) * 2 ^ 8 + Z.of_N (Byte.to_N b3).

(** JavaScript [a % b] on integers: truncated remainder, [NaN] for [b = 0]. *)
Definition js_rem (a b : Z) : jsval := if b =? 0 then JNaN else JInt (Z.rem a b).

(** [rand >= limit]; every comparison with [NaN] is false. *)
Definition js_ge (a : Z) (b : jsval) : bool :=
  match b with JInt l => l <=? a | JNaN => false end.

(** [const limit = 2 ** 32 - (2 ** 32 % max);] *)
Definition limit (max : Z) : jsval :=
  match js_rem (2 ^ 32) max with JInt r => JInt (2 ^ 32 - r) | JNaN => JNaN end.

(** The [do { rand = crypto.randomBytes(4).readUInt32BE(0); } while (rand >= limit);
    return rand % max;] loop over the entropy stream; [None] when the
    stream runs out before a draw is accepted. *)
Fixpoint gen_loop (max : Z) (lim : jsval) (es : list byte) : option (jsval * list byte) :=
  match es with
  | b0 :: b1 :: b2 :: b3 :: rest =>
      let rand := be32 b0 b1 b2 b3 in
      if js_ge rand lim then gen_loop max lim rest else Some (js_rem rand max, rest)
  | _ => None
  end.

(** [FairRandom.generateUniformRandom] *)
Definition generateUniformRandom (max : Z) (es : list byte) : option (jsval * list byte) :=
  gen_loop max (limit max) es.

(** [readUIntBE(0, 6)] of six bytes. *)
Definition be48 (b0 b1 b2 b3 b4 b5 : byte) : Z :=
  be32 b0 b1 b2 b3 * 2 ^ 16 + Z.of_N (Byte.to_N b4) * 2 ^ 8 + Z.of_N (Byte.to_N b5).

(** Node's [crypto.randomInt(max)]: 48-bit draws, rejection above
    [RAND_MAX - RAND_MAX % range]. *)
Definition RAND_MAX : Z := 2 ^ 48 - 1.

Fixpoint randomInt_loop (range randLimit : Z) (es : list byte) : option (Z * list byte) :=
  match es with
  | b0 :: b1 :: b2 :: b3 :: b4 :: b5 :: rest =>
      let x := be48 b0 b1 b2 b3 b4 b5 in
      if x <? randLimit then Some (x mod range, rest) else randomInt_loop range randLimit rest
  | _ => None
  end.

Definition hex_digit (n : N) : ascii :=
  if (n <? 10)%N then ascii_of_N (48 + n) else ascii_of_N (87 + n).

(** [buffer.toString('hex')] and [hmac.digest('hex')] *)
Definition hex (bs : list byte) : string :=
  string_of_list_ascii
    (flat_map (fun b => let n := Byte.to_N b in
                        [hex_digit (N.div n 16); hex_digit (N.modulo n 16)]) bs).

(** [value.toString()] *)
Definition toString (v : jsval) : string :=
  match v with
  | JInt z => NilZero.string_of_int (Z.to_int z)
  | JNaN => "NaN"%string
  end.

(** [(userInput + computerValue) % n] in the throws. *)
Definition combine (userInput : Z) (computerValue : jsval) (n : Z) : jsval :=
  match computerValue with
  | JInt v => js_rem (userInput + v) n
  | JNaN => JNaN
  end.

(** [Dice.roll(index)]: [this.values[index]], [undefined] ([None]) out of range. *)
Definition roll (values : list Z) (index : jsval) : option Z :=
  match index with
  | JInt i => if i <? 0 then None else nth_error values (Z.to_nat i)
  | JNaN => None
  end.

(** [[...Array(n).keys()]] *)
Definition range (n : nat) : list Z := map Z.of_nat (seq 0 n).

(** [array.splice(i, 1)[0]] and the array left behind. *)
Fixpoint splice1 {A} (i : nat) (l : list A) : option A * list A :=
  match l, i with
  | [], _ => (None, [])
  | x :: r, O => (Some x, r)
  | x :: r, S i' => let '(y, r') := splice1 i' r in (y, x :: r')
  end.

Inductive player := User | Computer.

(** The console lines that carry data, and the lines typed by the user. *)
Inductive event :=
| EHmac (sid : nat) (hmac : string)       (* "I selected a random value ... (HMAC=...)" *)
| EInput (line : string)                  (* a line read by readline-sync *)
| EExit                                   (* "Game exited." *)
| ETable                                  (* the probability table *)
| EInvalid                                (* "Invalid input. Try again." *)
| EReveal (sid : nat) (value : jsval) (key : string) (* "My selection/number ... (KEY=...)" *)
| EFirstMove (p : player)                 (* "You/I make the first move!" *)
| EComputerDice (values : list Z)         (* "I choose the dice: ..." *)
| ESum (userInput : Z) (computerValue result : jsval) (* "The result is ..." *)
| EThrows (user computer : option Z)      (* "Your throw" / "My throw" *)
| EWinner (p : option player).            (* "You win!" / "I win!" / "It's a tie!" *)

(** The state a run of the program threads: the lines the user will
    type, the bytes the CSPRNG will deliver, the fields of the [DiceGame]
    object, a counter naming [FairRandom] objects, and the console. *)
Record st := mkst {
  inputs : list string;
  entropy : list byte;
  dice : list (list Z);
  userDice : option (list Z);
  computerDice : option (list Z);
  nsess : nat;
  trace : list event
}.

(** [Halt]: [process.exit()], a thrown exception, or a prompt waiting for
    a line that never comes. *)
Inductive outcome (A : Type) := Ret (a : A) (s : st) | Halt (s : st).
Arguments Ret {A} a s.
Arguments Halt {A} s.

Definition M (A : Type) := st -> outcome A.

Definition ret {A} (a : A) : M A := fun s => Ret a s.
Definition bind {A B} (m : M A) (k : A -> M B) : M B :=
  fun s => match m s with Ret a s' => k a s' | Halt s' => Halt s' end.

Notation "x <- m ;; k" := (bind m (fun x => k))
  (at level 61, m at next level, right associativity).
Notation "m ;; k" := (bind m (fun _ => k)) (at level 61, right associativity).

Definition get : M st := fun s => Ret s s.

Definition add_event (e : event) (s : st) : st :=
  mkst (inputs s) (entropy s) (dice s) (userDice s) (computerDice s) (nsess s)
       (trace s ++ [e]).

Definition set_inputs (ins : list string) (s : st) : st :=
  mkst ins (entropy s) (dice s) (userDice s) (computerDice s) (nsess s) (trace s).

Definition set_entropy (es : list byte) (s : st) : st :=
  mkst (inputs s) es (dice s) (userDice s) (computerDice s) (nsess s) (trace s).

(** [console.log] of a line carrying data. *)
Definition log (e : event) : M unit := fun s => Ret tt (add_event e s).

(** [crypto.randomBytes(n)] *)
Definition randomBytes (n : nat) : M (list byte) := fun s =>
  if (n <=? List.length (entropy s))%nat
  then Ret (firstn n (entropy s)) (set_entropy (skipn n (entropy s)) s)
  else Halt s.

(** [crypto.randomInt(max)]; a [RangeError] when [max <= 0]. *)
Definition randomInt (max : Z) : M Z := fun s =>
  if (max <=? 0) || (RAND_MAX <? max) then Halt s
  else match randomInt_loop max (RAND_MAX - RAND_MAX mod max) (entropy s) with
       | Some (x, rest) => Ret x (set_entropy rest s)
       | None => Halt s
       end.

(** [this.generateUniformRandom(max)] run on the entropy stream. *)
Definition sample (max : Z) : M jsval := fun s =>
  match generateUniformRandom max (entropy s) with
  | Some (v, rest) => Ret v (set_entropy rest s)
  | None => Halt s
  end.

(** A fresh name for a new [FairRandom] object (object identity). *)
Definition fresh_sid : M nat := fun s =>
  Ret (nsess s) (mkst (inputs s) (entropy s) (dice s) (userDice s) (computerDice s)
                      (S (nsess s)) (trace s)).

(** The loop of [DiceGame.getUserInput(prompt, validInputs)], one line of
    [readlineSync.question] per iteration. *)
Fixpoint input_loop (validInputs : list Z) (ins : list string) (s : st) : outcome Z :=
  match ins with
  | [] => Halt s
  | line :: rest =>
      let input := trim line in
      let s1 := add_event (EInput line) (set_inputs rest s) in
      if string_dec (toLowerCase input) "x" then Halt (add_event EExit s1)
      else if string_dec (toLowerCase input) "?" then
        input_loop validInputs rest (add_event ETable s1)
      else match parseInt input 10 with
           | JInt parsed =>
               if existsb (Z.eqb parsed) validInputs then Ret parsed s1
               else input_loop validInputs rest (add_event EInvalid s1)
           | JNaN => input_loop validInputs rest (add_event EInvalid s1)
           end
  end.

(** [DiceGame.getUserInput] *)
Definition getUserInput (validInputs : list Z) : M Z := fun s =>
  input_loop validInputs (inputs s) s.

Definition halt {A} : M A := fun s => Halt s.
Definition put (s : st) : M unit := fun _ => Ret tt s.

(** [(a > b)] on two throws; [undefined] compares false with everything. *)
Definition js_gt (a b : option Z) : bool :=
  match a, b with Some x, Some y => y <? x | _, _ => false end.

(** [userGuess === computerValue] *)
Definition strict_eq (a : Z) (b : jsval) : bool :=
  match b with JInt v => a =? v | JNaN => false end.

(** The fields of a [FairRandom] object; [sid] is the object's identity. *)
Record FairRandom := mkFR {
  rangeMax : Z;
  key : list byte;
  value : jsval;
  hmac : string;
  sid : nat
}.

(** [fairness.revealKey()] *)
Definition revealKey (fr : FairRandom) : string := hex (key fr).

(** [new DiceGame(diceConfigs)], with the lines the user will type and the
    bytes the CSPRNG will deliver. *)
Definition new_DiceGame (diceConfigs : list (list Z)) (ins : list string)
    (es : list byte) : st :=
  mkst ins es diceConfigs None None 0 [].

Section Protocol.

(** Node's [crypto.createHmac('sha3-256', key).update(message).digest()],
    as a function of the key bytes and the message bytes; every statement
    below holds for every such function. *)
Variable hmac_sha3_256 : list byte -> list byte -> list byte.

(** [FairRandom.calculateHMAC] *)
Definition calculateHMAC (key : list byte) (value : jsval) : string :=
  hex (hmac_sha3_256 key (list_byte_of_string (toString value))).

(** [new FairRandom(rangeMax)] *)
Definition new_FairRandom (rangeMax : Z) : M FairRandom :=
  key <- randomBytes 32 ;;
  value <- sample rangeMax ;;
  sid <- fresh_sid ;;
  ret (mkFR rangeMax key value (calculateHMAC key value) sid).

(** [DiceGame.userSelectDice] *)
Definition userSelectDice : M unit :=
  s <- get ;;
  selection <- getUserInput (range (List.length (dice s))) ;;
  s' <- get ;;
  let '(picked, rest) := splice1 (Z.to_nat selection) (dice s') in
  put (mkst (inputs s') (entropy s') rest picked (computerDice s') (nsess s') (trace s')).

(** [DiceGame.computerSelectDice] *)
Definition computerSelectDice : M unit :=
  s <- get ;;
  randomIndex <- randomInt (Z.of_nat (List.length (dice s))) ;;
  s' <- get ;;
  let '(picked, rest) := splice1 (Z.to_nat randomIndex) (dice s') in
  put (mkst (inputs s') (entropy s') rest (userDice s') picked (nsess s') (trace s')) ;;
  match picked with
  | Some values => log (EComputerDice values)
  | None => halt
  end.

(** [DiceGame.userThrow] *)
Definition userThrow : M (option Z) :=
  s <- get ;;
  match userDice s with
  | None => halt
  | Some values =>
      let n := Z.of_nat (List.length values) in
      fairness <- new_FairRandom n ;;
      log (EHmac (sid fairness) (hmac fairness)) ;;
      userInput <- getUserInput (range (List.length values)) ;;
      let computerValue := value fairness in
      log (EReveal (sid fairness) computerValue (revealKey fairness)) ;;
      let result := combine userInput computerValue n in
      log (ESum userInput computerValue result) ;;
      ret (roll values result)
  end.

(** [DiceGame.computerThrow] *)
Definition computerThrow : M (option Z) :=
  s <- get ;;
  match computerDice s with
  | None => halt
  | Some values =>
      let n := Z.of_nat (List.length values) in
      fairness <- new_FairRandom n ;;
      log (EHmac (sid fairness) (hmac fairness)) ;;
      userInput <- getUserInput (range (List.length values)) ;;
      let computerValue := value fairness in
      log (EReveal (sid fairness) computerValue (revealKey fairness)) ;;
      let result := combine userInput computerValue n in
      log (ESum userInput computerValue result) ;;
      ret (roll values result)
  end.

(** [DiceGame.declareWinner] *)
Definition declareWinner (userRoll computerRoll : option Z) : M unit :=
  log (EThrows userRoll computerRoll) ;;
  log (EWinner (if js_gt userRoll computerRoll then Some User
                else if js_gt computerRoll userRoll then Some Computer
                else None)).

(** Lines 94-100 of [DiceGame.start]: who makes the first move. *)
Definition turn_order : M bool :=
  fairness <- new_FairRandom 2 ;;
  log (EHmac (sid fairness) (hmac fairness)) ;;
  userGuess <- getUserInput [0; 1] ;;
  let computerValue := value fairness in
  log (EReveal (sid fairness) computerValue (revealKey fairness)) ;;
  ret (strict_eq userGuess computerValue).

(** [DiceGame.start] *)
Definition start : M unit :=
  userFirst <- turn_order ;;
  (if userFirst
   then log (EFirstMove User) ;; userSelectDice ;; computerSelectDice
   else log (EFirstMove Computer) ;; computerSelectDice ;; userSelectDice) ;;
  computerRoll <- computerThrow ;;
  userRoll <- userThrow ;;
  declareWinner userRoll computerRoll.

End Protocol.

End Game.

Import Game.

Definition zeros (n : nat) : list byte := repeat x00 n.

(* ================================================================= *)
(** ** The turn order and commitment of part_000 *)
(* ================================================================= *)

Module Variant.

Local Open Scope Z_scope.

(** [Buffer.from([value])]: the single byte [value] modulo 256. *)
Definition byte_of (z : Z) : byte :=
  match Byte.of_N (Z.to_N (Z.land z 255)) with Some b => b | None => x00 end.

Section Commit.

Variable hmac_sha3_256 : list byte -> list byte -> list byte.

(** [FairRandomGenerator.generateHMAC(value)] *)
Definition generateHMAC (key : list byte) (value : Z) : string :=
  hex (hmac_sha3_256 key [byte_of value]).

End Commit.

(** The answer of [Game.determineTurnOrder] once the user typed
    [userGuess]: [parseInt(userGuess) === compVal ? 'user' : 'computer']. *)
Definition determineTurnOrder (compVal : Z) (userGuess : string) : player :=
  if match parseInt userGuess 0 with JInt g => g =? compVal | JNaN => false end
  then User else Computer.

End Variant.

Import Variant.

(* ================================================================= *)
(** ** Vocabulary of the proofs: draws, console properties, the spec's
       verification *)
(* ================================================================= *)

Module Props.

Local Open Scope Z_scope.

(** [filter]-count of a list. *)
Definition count (f : Z -> bool) (l : list Z) : nat := List.length (filter f l).

(** A 32-bit draw: four bytes of the entropy stream. *)
Definition draw4 := (byte * byte * byte * byte)%type.

Definition bytes_of_draw (d : draw4) : list byte :=
  let '(a, b, c, e) := d in [a; b; c; e].

Definition draw (d : draw4) : Z := let '(a, b, c, e) := d in be32 a b c e.

(** The state an outcome ends in. *)
Definition final {A} (o : outcome A) : st :=
  match o with Ret _ s => s | Halt s => s end.

Definition non_reveal (e : event) : Prop :=
  match e with EReveal _ _ _ => False | _ => True end.

(** A property of the console that survives lines that reveal nothing. *)
Definition closed_nr (P : list event -> Prop) : Prop :=
  forall t ext, P t -> Forall non_reveal ext -> P (t ++ ext).

(** [m] preserves [P] of the console, whether it returns or halts. *)
Definition keeps (P : list event -> Prop) {A} (m : M A) : Prop :=
  forall s, P (trace s) -> P (trace (final (m s))).

(** A session, from the published commitment to the revealed secret,
    preserves [P] whatever follows it preserves. *)
Definition session_ok (H : list byte -> list byte -> list byte)
    (P : list event -> Prop) : Prop :=
  forall A fr valid (K : Z -> M A),
    hmac fr = calculateHMAC H (key fr) (value fr) ->
    (forall u, keeps P (K u)) ->
    keeps P (log (EHmac (sid fr) (hmac fr)) ;;
             u <- getUserInput valid ;;
             (log (EReveal (sid fr) (value fr) (revealKey fr)) ;; K u)).

(** Every revealed secret of session [id] follows, on the console, the
    commitment of [id], and comes right after a line typed after that
    commitment which [parseInt] reads as a number: the answer the input loop
    accepted (a line it rejects or acts on is followed by its message). *)
Definition reveal_after_input (t : list event) : Prop :=
  forall pre id v k post, t = pre ++ EReveal id v k :: post ->
  exists a h b l u, pre = a ++ EHmac id h :: b ++ [EInput l] /\
                    parseInt (trim l) 10 = JInt u.

(** Every revealed key and value reproduce the commitment published for
    their session. *)
Definition reveal_matches (H : list byte -> list byte -> list byte) (t : list event) : Prop :=
  forall id v k, In (EReveal id v k) t ->
  exists key, k = hex key /\ In (EHmac id (calculateHMAC H key v)) t.

(** The console starts with [t0]. *)
Definition starts_with (t0 t : list event) : Prop := exists ext, t = t0 ++ ext.

(** The body shared by [userThrow] and [computerThrow] once the die is known. *)
Definition throw_body (H : list byte -> list byte -> list byte) (values : list Z)
    : M (option Z) :=
  let n := Z.of_nat (List.length values) in
  fairness <- new_FairRandom H n ;;
  log (EHmac (sid fairness) (hmac fairness)) ;;
  userInput <- getUserInput (range (List.length values)) ;;
  let computerValue := value fairness in
  log (EReveal (sid fairness) computerValue (revealKey fairness)) ;;
  let result := combine userInput computerValue n in
  log (ESum userInput computerValue result) ;;
  ret (roll values result).

(** The spec's [verify(key, value, digest)]: recompute the commitment from
    the revealed key and value and compare it with the published digest. *)
Definition verify (H : list byte -> list byte -> list byte) (key : list byte)
    (value : jsval) (digest : string) : bool :=
  String.eqb (calculateHMAC H key value) digest.

(** The same check for the commitments of part_000. *)
Definition verify_part000 (H : list byte -> list byte -> list byte) (key : list byte)
    (value : Z) (digest : string) : bool :=
  String.eqb (generateHMAC H key value) digest.

End Props.

Import Props.


(* ================================================================= *)
(** ** Vocabulary of the further properties of the code *)
(* ================================================================= *)

Module ExtraDefs.

Local Open Scope Z_scope.

(** The digits of a decimal numeral. *)
Fixpoint udigits (d : Decimal.uint) : list Z :=
  match d with
  | Decimal.Nil => []
  | Decimal.D0 d => 0 :: udigits d
  | Decimal.D1 d => 1 :: udigits d
  | Decimal.D2 d => 2 :: udigits d
  | Decimal.D3 d => 3 :: udigits d
  | Decimal.D4 d => 4 :: udigits d
  | Decimal.D5 d => 5 :: udigits d
  | Decimal.D6 d => 6 :: udigits d
  | Decimal.D7 d => 7 :: udigits d
  | Decimal.D8 d => 8 :: udigits d
  | Decimal.D9 d => 9 :: udigits d
  end.

Definition is_digit_char (c : ascii) : bool := (48 <=? code c) && (code c <=? 57).

Definition numeral_char (c : ascii) : bool := is_digit_char c || Ascii.eqb c "-".

(** [m] leaves the remaining dice and both players' dice as they were. *)
Definition dframe {A} (m : M A) : Prop :=
  forall s a s', m s = Ret a s' ->
  dice s' = dice s /\ userDice s' = userDice s /\ computerDice s' = computerDice s.

(** The 32-bit draws [x] the loop accepts and maps to [r]. *)
Definition accepted_as (N r x : Z) : bool :=
  negb (js_ge x (limit N)) && match js_rem x N with JInt v => v =? r | JNaN => false end.

(** All 2^32 values of [readUInt32BE]. *)
Definition draws32 : list Z := map Z.of_nat (seq 0 (Z.to_nat (2 ^ 32))).

(** The characters of [hex]. *)
Definition hex_chars (bs : list byte) : list ascii :=
  flat_map (fun b => let n := Byte.to_N b in
                     [hex_digit (N.div n 16); hex_digit (N.modulo n 16)]) bs.

(** A die argument [parseDice] accepts. *)
Definition die_ok (a : string) : bool :=
  forallb (fun t => negb (isNaN t)) (split_comma a) && (List.length (split_comma a) =? 6)%nat.

(** The values [parseDice] keeps for an accepted die. *)
Definition die_values (a : string) : list jsval := map (fun t => parseInt t 10) (split_comma a).


(** A game over Scenario A's dice with an all-zero entropy stream. *)
Definition demo (ins : list string) : st := new_DiceGame [die1; die2; die3] ins (zeros 400).

(** A stand-in keyed hash for concrete runs. *)
Definition id_hmac : list byte -> list byte -> list byte := fun _ m => m.

End ExtraDefs.

Import ExtraDefs.

(* ================================================================= *)
(** ** Sanity checks of the embedding on small inputs *)
(* ================================================================= *)

Example parseInt_2_5 : parseInt "2.5" 10 = JInt 2.
Proof. reflexivity. Qed.
Example isNaN_empty : isNaN "" = false.
Proof. reflexivity. Qed.
Example isNaN_abc : isNaN "2a" = true.
Proof. reflexivity. Qed.
Example toNumber_frac : toNumber " -2.50e1 " = NFin (-25) 0.
Proof. vm_compute. reflexivity. Qed.
Example toNumber_half : toNumber "0.5" = NFin 5 (-1).
Proof. vm_compute. reflexivity. Qed.
Example toNumber_overflow : toNumber "1e400" = NInf false.
Proof. vm_compute. reflexivity. Qed.
Example toNumber_max : toNumber "-1.7976931348623157e308" = NFin (- (2 ^ 1024 - 2 ^ 971)) 0.
Proof. vm_compute. reflexivity. Qed.
Example toNumber_rounds_to_one : toNumber "1.0000000000000000001" = NFin 1 0.
Proof. vm_compute. reflexivity. Qed.
Example isInteger_rounded : isInteger (toNumber "1.0000000000000000001") = true.
Proof. vm_compute. reflexivity. Qed.
Example toNumber_underflow : toNumber "1e-400" = NFin 0 0.
Proof. vm_compute. reflexivity. Qed.
Example toNumber_hex_rounds : toNumber "0x20000000000001" = NFin (2 ^ 53) 0.
Proof. vm_compute. reflexivity. Qed.
Example parseInt_hex_noradix : parseInt "0x1" 0 = JInt 1.
Proof. reflexivity. Qed.
Example split_example : split_comma "1,,2" = ["1"; ""; "2"]%string.
Proof. reflexivity. Qed.

Example parseDice_two : parseDice ["2,2,4,4,9,9"; "1,1,6,6,8,8"]%string = Err TooFewDice.
Proof. reflexivity. Qed.
Example parseDice_five :
  parseDice ["2,2,4,4,9"; "1,1,6,6,8,8"; "3,3,5,5,7,7"]%string = Err (WrongValueCount 1).
Proof. reflexivity. Qed.
Example parseDice_letter :
  parseDice ["2,2,4,4,9,a"; "1,1,6,6,8,8"; "3,3,5,5,7,7"]%string = Err (NonIntegerValue 1 "a").
Proof. reflexivity. Qed.
Example DiceConfiguration_frac :
  DiceConfiguration ["2.5,2,4,4,9,9"; "1,1,6,6,8,8"; "3,3,5,5,7,7"]%string = Err InvalidDie.
Proof. reflexivity. Qed.

Example scenarioA_p0 :
  cell 0 1 (probability_table [die1; die2; die3])
  = Some (PCell {| fraction := (20, 36)%nat; percentage := Some 5556%Z |}).
Proof. vm_compute. reflexivity. Qed.
Example scenarioA_gj :
  cell 0 1 (calculateProbabilities [die1; die2; die3]) = Some (GFixed 5556).
Proof. vm_compute. reflexivity. Qed.

(** Ties are rounded as binary64 values: 6 / 1600 = 0.00375 is stored
    slightly below, and [toFixed(4)] gives "0.0037"; 58 / 1600 * 100 = 3.625
    is stored slightly below too, and [toFixed(2)] gives "3.62". *)
Example toFixed_tie_game :
  gj_cell_of (repeat 1 6 ++ repeat 0 34)%Z (0 :: repeat 1 39)%Z = GFixed 37%Z.
Proof. vm_compute. reflexivity. Qed.

Example toFixed_tie_part000 :
  calculateProbability (repeat 1 29 ++ repeat 0 11)%Z (repeat 0 2 ++ repeat 1 38)%Z
  = {| fraction := (58, 1600)%nat; percentage := Some 362%Z |}.
Proof. vm_compute. reflexivity. Qed.

Example to_double_tenth : to_double (1 # 10) == 3602879701896397 # 36028797018963968.
Proof. reflexivity. Qed.


(* ================================================================= *)
(** ** Counting lemmas for the probability engines *)
(* ================================================================= *)

Module ProbFacts.

Local Open Scope Z_scope.


Lemma imap_from_nth {A B} (f : nat -> A -> B) (k : nat) (l : list A) (i : nat) :
  nth_error (imap_from f k l) i = option_map (f (k + i)%nat) (nth_error l i).
Proof.
  revert k i; induction l as [|x l IH]; intros k [|i]; cbn; try reflexivity.
  - rewrite Nat.add_0_r. reflexivity.
  - rewrite IH. f_equal. f_equal. lia.
Qed.

Lemma imap_nth {A B} (f : nat -> A -> B) (l : list A) (i : nat) :
  nth_error (imap f l) i = option_map (f i) (nth_error l i).
Proof. apply imap_from_nth. Qed.

Lemma filter_map_pair (f : Z * Z -> bool) (a : Z) (l : list Z) :
  List.length (filter f (map (pair a) l)) = count (fun b => f (a, b)) l.
Proof.
  unfold count; induction l as [|b l IH]; cbn; [reflexivity|].
  destruct (f (a, b)); cbn; rewrite ?IH; reflexivity.
Qed.

Lemma prod_count_cons (f : Z * Z -> bool) (a : Z) (d1 d2 : list Z) :
  List.length (filter f (list_prod (a :: d1) d2))
  = (count (fun b => f (a, b)) d2 + List.length (filter f (list_prod d1 d2)))%nat.
Proof.
  cbn [list_prod]. rewrite filter_app, length_app, <- filter_map_pair. reflexivity.
Qed.

Lemma prod_count_cons_r (f : Z * Z -> bool) (b : Z) (d1 d2 : list Z) :
  List.length (filter f (list_prod d1 (b :: d2)))
  = (count (fun a => f (a, b)) d1 + List.length (filter f (list_prod d1 d2)))%nat.
Proof.
  induction d1 as [|a d1 IH]; [reflexivity|].
  rewrite prod_count_cons, prod_count_cons, IH.
  unfold count; cbn. destruct (f (a, b)); cbn; lia.
Qed.

Lemma inner_wins (v1 : Z) (v2s : list Z) (w : nat) :
  fold_left (fun wins v2 => if v2 <? v1 then S wins else wins) v2s w
  = (w + count (fun b => Z.ltb b v1) v2s)%nat.
Proof.
  unfold count; revert w; induction v2s as [|b l IH]; intros w; cbn; [lia|].
  destruct (b <? v1); cbn; rewrite IH; lia.
Qed.

Lemma count_wins_spec (d1 d2 : list Z) : count_wins d1 d2 = spec_wins d1 d2.
Proof.
  unfold count_wins, spec_wins.
  assert (G : forall w, fold_left (fun wins v1 =>
      fold_left (fun wins v2 => if v2 <? v1 then S wins else wins) d2 wins) d1 w
    = (w + List.length (filter (fun '(a, b) => Z.ltb b a) (list_prod d1 d2)))%nat).
  { induction d1 as [|a d1 IH]; intros w; cbn [fold_left]; [cbn; lia|].
    rewrite IH, inner_wins, prod_count_cons. lia. }
  rewrite G. reflexivity.
Qed.

Lemma inner_pair (r1 : Z) (d2 : list Z) (w t : nat) :
  fold_left (fun '(wins, total) roll2 =>
      (if roll2 <? r1 then S wins else wins, S total)) d2 (w, t)
  = ((w + count (fun b => Z.ltb b r1) d2)%nat, (t + List.length d2)%nat).
Proof.
  unfold count; revert w t; induction d2 as [|b l IH]; intros w t; cbn.
  - f_equal; lia.
  - destruct (b <? r1); cbn; rewrite IH; f_equal; lia.
Qed.

Lemma calculateProbability_fraction (d1 d2 : list Z) :
  fraction (calculateProbability d1 d2)
  = (spec_wins d1 d2, (List.length d1 * List.length d2)%nat).
Proof.
  unfold calculateProbability, spec_wins.
  assert (G : forall w t, fold_left (fun acc roll1 =>
      fold_left (fun '(wins, total) roll2 =>
        (if roll2 <? roll1 then S wins else wins, S total)) d2 acc) d1 (w, t)
    = ((w + List.length (filter (fun '(a, b) => Z.ltb b a) (list_prod d1 d2)))%nat,
       (t + List.length d1 * List.length d2)%nat)).
  { induction d1 as [|a d1 IH]; intros w t; cbn [fold_left]; [cbn; f_equal; lia|].
    rewrite inner_pair, IH, prod_count_cons. cbn [List.length]. f_equal; lia. }
  rewrite G. reflexivity.
Qed.

Lemma calculateProbability_percentage (d1 d2 : list Z) :
  percentage (calculateProbability d1 d2)
  = let '(w, t) := fraction (calculateProbability d1 d2) in
    if (t =? 0)%nat then None
    else Some (to_fixed 2 (to_double
           (to_double (inject_Z (Z.of_nat w) / inject_Z (Z.of_nat t)) * inject_Z 100))).
Proof.
  unfold calculateProbability.
  destruct (fold_left _ d1 _) as [w t]. reflexivity.
Qed.

Lemma count_trichotomy (a : Z) (l : list Z) :
  (count (fun b => Z.ltb b a) l + count (fun b => Z.ltb a b) l + count (fun b => Z.eqb a b) l)%nat
  = List.length l.
Proof.
  unfold count; induction l as [|b l IH]; cbn; [reflexivity|].
  destruct (Z.compare_spec a b) as [E|E|E].
  - subst. rewrite Z.ltb_irrefl, Z.eqb_refl. cbn. lia.
  - rewrite (proj2 (Z.ltb_lt a b) E), (proj2 (Z.ltb_ge b a) (Z.lt_le_incl _ _ E)).
    rewrite (proj2 (Z.eqb_neq a b) (Z.lt_neq _ _ E)). cbn. lia.
  - rewrite (proj2 (Z.ltb_lt b a) E), (proj2 (Z.ltb_ge a b) (Z.lt_le_incl _ _ E)).
    rewrite (proj2 (Z.eqb_neq a b) (Z.neq_sym _ _ (Z.lt_neq _ _ E))). cbn. lia.
Qed.

Lemma wins_ties_total (d1 d2 : list Z) :
  (spec_wins d1 d2 + spec_wins d2 d1 + spec_ties d1 d2)%nat
  = (List.length d1 * List.length d2)%nat.
Proof.
  unfold spec_wins, spec_ties.
  induction d1 as [|a d1 IH].
  { assert (E : forall l : list Z, list_prod l (@nil Z) = []).
    { induction l; cbn; auto. }
    cbn. rewrite E. reflexivity. }
  rewrite !prod_count_cons, prod_count_cons_r.
  pose proof (count_trichotomy a d2) as T. cbn [List.length]. lia.
Qed.

Lemma spec_wins_le d1 d2 : (spec_wins d1 d2 <= List.length d1 * List.length d2)%nat.
Proof.
  unfold spec_wins. rewrite <- length_prod. apply filter_length_le.
Qed.

End ProbFacts.

Import ProbFacts.

(* ================================================================= *)
(** ** Binary64 rounding: error bound and the rounded tables *)
(* ================================================================= *)

Module Binary64Facts.

Local Open Scope Z_scope.

Definition eps53 : Q := 1 # 9007199254740992.

Lemma rne_div_spec a b : 0 < b -> 2 * Z.abs (a - b * rne_div a b) <= b.
Proof.
  intros Hb. unfold rne_div.
  pose proof (Z.div_mod a b ltac:(lia)) as E. pose proof (Z.mod_pos_bound a b Hb) as R.
  set (q := a / b) in *. set (r := a mod b) in *.
  destruct (Z.compare_spec (2 * r) b) as [C|C|C];
    [destruct (Z.even q)|..]; rewrite E at 1; nia.
Qed.

Lemma rne_div_le a b K : 0 < b -> a <= K * b -> rne_div a b <= K.
Proof.
  intros Hb H. unfold rne_div.
  pose proof (Z.div_mod a b ltac:(lia)) as E. pose proof (Z.mod_pos_bound a b Hb) as R.
  set (q := a / b) in *. set (r := a mod b) in *.
  assert (Q1 : b * q <= b * K) by lia.
  assert (Q2 : 0 < r -> b * q < b * K) by lia.
  apply Z.mul_le_mono_pos_l in Q1; [|exact Hb].
  assert (Q3 : 0 < r -> q < K) by (intros Hr; apply (Z.mul_lt_mono_pos_l b); [exact Hb|auto]).
  destruct (Z.compare_spec (2 * r) b) as [C|C|C]; [destruct (Z.even q)|..]; lia.
Qed.

Lemma rne_div_nonneg a b : 0 <= a -> 0 < b -> 0 <= rne_div a b.
Proof.
  intros Ha Hb. unfold rne_div.
  assert (0 <= a / b) by (apply Z.div_pos; lia).
  destruct (Z.compare (2 * (a mod b)) b); [destruct (Z.even (a / b))|..]; lia.
Qed.

Lemma scaled_succ n d e :
  fst (scaled n d e) * snd (scaled n d (e + 1))
  = 2 * fst (scaled n d (e + 1)) * snd (scaled n d e).
Proof.
  unfold scaled; cbn [fst snd].
  destruct (Z.le_gt_cases 0 e) as [H|H].
  - rewrite (Z.max_r 0 (e + 1)), (Z.max_r 0 e), (Z.max_l 0 (- e)), (Z.max_l 0 (- (e + 1)))
      by lia; rewrite Z.pow_add_r by lia. ring.
  - rewrite (Z.max_r 0 (- e)), (Z.max_l 0 e), (Z.max_l 0 (e + 1)) by lia.
    replace (- e) with (Z.max 0 (- (e + 1)) + 1) by lia.
    rewrite Z.pow_add_r by lia. ring.
Qed.

Lemma binexp_spec n d : 0 < n -> 0 < d ->
  binexp n d = -1074 \/
  2 ^ 52 * snd (scaled n d (binexp n d)) <= fst (scaled n d (binexp n d)).
Proof.
  intros Hn Hd. unfold binexp.
  set (e0 := Z.log2 n - Z.log2 d - 53).
  assert (L0 : 2 ^ 52 * snd (scaled n d e0) <= fst (scaled n d e0)).
  { unfold scaled; cbn [fst snd].
    destruct (Z.log2_spec n Hn) as [N1 N2]. destruct (Z.log2_spec d Hd) as [D1 D2].
    pose proof (Z.log2_nonneg n). pose proof (Z.log2_nonneg d).
    assert (Eq : 52 + Z.succ (Z.log2 d) + Z.max 0 e0 = Z.log2 n + Z.max 0 (- e0))
      by (unfold e0; lia).
    assert (P1 : 2 ^ 52 * (2 ^ Z.succ (Z.log2 d) * 2 ^ Z.max 0 e0)
                 = 2 ^ Z.log2 n * 2 ^ Z.max 0 (- e0)).
    { rewrite <- !Z.pow_add_r by lia. rewrite Z.add_assoc, Eq. reflexivity. }
    assert (0 < 2 ^ Z.max 0 e0) by (apply Z.pow_pos_nonneg; lia).
    assert (0 < 2 ^ Z.max 0 (- e0)) by (apply Z.pow_pos_nonneg; lia).
    nia. }
  pose proof (scaled_succ n d e0) as S1.
  destruct (scaled n d e0) as [a0 b0] eqn:E0. cbn [fst snd] in *.
  assert (B0 : 0 < b0).
  { unfold scaled in E0. injection E0 as _ <-.
    assert (0 < 2 ^ Z.max 0 e0) by (apply Z.pow_pos_nonneg; lia). nia. }
  assert (B1 : 0 < snd (scaled n d (e0 + 1))).
  { unfold scaled; cbn [snd].
    assert (0 < 2 ^ Z.max 0 (e0 + 1)) by (apply Z.pow_pos_nonneg; lia). nia. }
  set (e1 := if 2 ^ 53 * b0 <=? a0 then e0 + 1 else e0).
  assert (L1 : 2 ^ 52 * snd (scaled n d e1) <= fst (scaled n d e1)).
  { unfold e1. destruct (Z.leb_spec (2 ^ 53 * b0) a0) as [C|C]; [|rewrite E0; exact L0].
    destruct (scaled n d (e0 + 1)) as [a1 b1]. cbn [fst snd] in *.
    change (2 ^ 53) with (2 * 2 ^ 52) in C. nia. }
  destruct (Z.le_gt_cases (-1074) e1) as [C|C].
  - right. rewrite Z.max_l by exact C. exact L1.
  - left. apply Z.max_r. lia.
Qed.

Lemma inject_Z_pos z : 0 < z -> (0 < inject_Z z)%Q.
Proof. intros H. change 0%Q with (inject_Z 0). rewrite <- Zlt_Qlt. exact H. Qed.

Lemma inject_Z_nz z : z <> 0 -> ~ (inject_Z z == 0)%Q.
Proof. intros H E. apply H. apply (proj1 (inject_Z_injective z 0)). exact E. Qed.

Lemma pow2_pos e : (0 < pow2 e)%Q.
Proof.
  unfold pow2. apply Qlt_shift_div_l; [apply inject_Z_pos, Z.pow_pos_nonneg; lia|].
  rewrite Qmult_0_l. apply inject_Z_pos, Z.pow_pos_nonneg; lia.
Qed.

Lemma scaled_value n d e : 0 < d ->
  (inject_Z n / inject_Z d
   == inject_Z (fst (scaled n d e)) / inject_Z (snd (scaled n d e)) * pow2 e)%Q.
Proof.
  intros Hd. unfold scaled, pow2; cbn [fst snd].
  assert (A : 0 < 2 ^ Z.max 0 e) by (apply Z.pow_pos_nonneg; lia).
  assert (B : 0 < 2 ^ Z.max 0 (- e)) by (apply Z.pow_pos_nonneg; lia).
  rewrite !inject_Z_mult. field.
  split; [|split]; apply inject_Z_nz; lia.
Qed.

Lemma to_double_pos_err n d : 0 < n -> 0 < d ->
  (inject_Z n / inject_Z d - (inject_Z n / inject_Z d + 1) * eps53 <= to_double_pos n d <=
   inject_Z n / inject_Z d + (inject_Z n / inject_Z d + 1) * eps53)%Q.
Proof.
  intros Hn Hd. unfold to_double_pos.
  pose proof (binexp_spec n d Hn Hd) as BE.
  pose proof (scaled_value n d (binexp n d) Hd) as SV.
  set (e := binexp n d) in *.
  assert (Bpos : 0 < snd (scaled n d e))
    by (unfold scaled; cbn [snd]; assert (0 < 2 ^ Z.max 0 e) by (apply Z.pow_pos_nonneg; lia); nia).
  destruct (scaled n d e) as [a b]. cbn [fst snd] in *.
  set (x := (inject_Z n / inject_Z d)%Q) in *.
  pose proof (rne_div_spec a b Bpos) as RS.
  set (m := rne_div a b) in *.
  set (P := pow2 e) in *.
  assert (PP : (0 < P)%Q) by apply pow2_pos.
  set (r := (inject_Z a / inject_Z b)%Q) in *.
  assert (Bq : (0 < inject_Z b)%Q) by (apply inject_Z_pos; exact Bpos).
  assert (Rb : (r * inject_Z b == inject_Z a)%Q)
    by (unfold r; field; intros E; rewrite E in Bq; discriminate).
  assert (M1 : (inject_Z (2 * (a - b * m)) <= inject_Z b)%Q)
    by (rewrite <- Zle_Qle; lia).
  assert (M2 : (- inject_Z b <= inject_Z (2 * (a - b * m)))%Q)
    by (rewrite <- inject_Z_opp, <- Zle_Qle; lia).
  unfold Z.sub in M1, M2.
  rewrite inject_Z_mult, inject_Z_plus, inject_Z_opp, inject_Z_mult in M1, M2.
  change (inject_Z 2) with 2%Q in M1, M2.
  assert (Dm : (inject_Z m - r == (inject_Z b * inject_Z m - inject_Z a) / inject_Z b)%Q)
    by (unfold r; field; intros E; rewrite E in Bq; discriminate).
  assert (D1 : (inject_Z m - r <= 1 # 2)%Q)
    by (rewrite Dm; apply Qle_shift_div_r; [exact Bq|lra]).
  assert (D2 : (- (1 # 2) <= inject_Z m - r)%Q)
    by (rewrite Dm; apply Qle_shift_div_l; [exact Bq|lra]).
  assert (E1 : (inject_Z m * P - x <= P * (1 # 2))%Q).
  { rewrite SV. setoid_replace (inject_Z m * P - r * P)%Q with ((inject_Z m - r) * P)%Q by ring.
    rewrite (Qmult_comm P). apply Qmult_le_compat_r; [exact D1|apply Qlt_le_weak, PP]. }
  assert (E2 : (- (P * (1 # 2)) <= inject_Z m * P - x)%Q).
  { rewrite SV. setoid_replace (inject_Z m * P - r * P)%Q with ((inject_Z m - r) * P)%Q by ring.
    setoid_replace (- (P * (1 # 2)))%Q with ((- (1 # 2)) * P)%Q by ring.
    apply Qmult_le_compat_r; [exact D2|apply Qlt_le_weak, PP]. }
  assert (HP : (P * (1 # 2) <= (x + 1) * eps53)%Q).
  { destruct BE as [BE|BE].
    - unfold P. rewrite BE.
      assert (X0 : (0 <= x)%Q).
      { unfold x. apply Qle_shift_div_l; [apply inject_Z_pos; lia|].
        rewrite Qmult_0_l. change 0%Q with (inject_Z 0). rewrite <- Zle_Qle. lia. }
      assert (C : (pow2 (-1074) * (1 # 2) <= eps53)%Q) by (vm_compute; discriminate).
      unfold eps53 in *. lra.
    - assert (R52 : (inject_Z (2 ^ 52) <= r)%Q).
      { unfold r. apply Qle_shift_div_l; [exact Bq|].
        rewrite <- inject_Z_mult, <- Zle_Qle. lia. }
      assert (X52 : (inject_Z (2 ^ 52) * P <= x)%Q)
        by (rewrite SV; apply Qmult_le_compat_r; [exact R52|apply Qlt_le_weak, PP]).
      change (inject_Z (2 ^ 52)) with (4503599627370496 # 1) in X52.
      unfold eps53. lra. }
  split; lra.
Qed.

Lemma to_double_pos_nonneg n d : 0 < n -> 0 < d -> (0 <= to_double_pos n d)%Q.
Proof.
  intros Hn Hd. unfold to_double_pos.
  destruct (scaled n d (binexp n d)) as [a b] eqn:E.
  unfold scaled in E. injection E as Ea Eb.
  assert (0 < 2 ^ Z.max 0 (binexp n d)) by (apply Z.pow_pos_nonneg; lia).
  assert (0 < 2 ^ Z.max 0 (- binexp n d)) by (apply Z.pow_pos_nonneg; lia).
  apply Qmult_le_0_compat; [|apply Qlt_le_weak, pow2_pos].
  change 0%Q with (inject_Z 0). rewrite <- Zle_Qle. apply rne_div_nonneg; nia.
Qed.

Lemma to_double_pos_le_int n d B : 0 < n -> 0 < d -> B < 2 ^ 52 -> n <= B * d ->
  (to_double_pos n d <= inject_Z B)%Q.
Proof.
  intros Hn Hd HB Hnd. unfold to_double_pos.
  pose proof (binexp_spec n d Hn Hd) as BE.
  set (e := binexp n d) in *.
  assert (Ee : e < 0).
  { destruct BE as [BE|BE]; [lia|].
    destruct (Z.le_gt_cases 0 e) as [C|C]; [|exact C]. exfalso.
    unfold scaled in BE; cbn [fst snd] in BE.
    rewrite (Z.max_l 0 (- e)), (Z.max_r 0 e) in BE by lia.
    assert (1 <= 2 ^ e) by (apply (Z.pow_le_mono_r 2 0 e); lia).
    change (2 ^ 0) with 1 in BE. nia. }
  unfold scaled, pow2. rewrite (Z.max_l 0 e), (Z.max_r 0 (- e)) by lia.
  assert (P : 0 < 2 ^ (- e)) by (apply Z.pow_pos_nonneg; lia).
  assert (M : rne_div (n * 2 ^ (- e)) (d * 2 ^ 0) <= B * 2 ^ (- e))
    by (apply rne_div_le; change (2 ^ 0) with 1; nia).
  change (2 ^ 0) with 1 in *.
  setoid_replace (inject_Z (rne_div (n * 2 ^ (- e)) (d * 1)) * (inject_Z 1 / inject_Z (2 ^ (- e))))%Q
    with (inject_Z (rne_div (n * 2 ^ (- e)) (d * 1)) / inject_Z (2 ^ (- e)))%Q
    by (field; apply inject_Z_nz; lia).
  apply Qle_shift_div_r; [apply inject_Z_pos; exact P|].
  rewrite <- inject_Z_mult, <- Zle_Qle. exact M.
Qed.

Lemma to_double_err x : (0 <= x)%Q ->
  (x - (x + 1) * eps53 <= to_double x <= x + (x + 1) * eps53)%Q.
Proof.
  destruct x as [[|n|n] d]; intros H; unfold to_double; cbn [Qnum Qden].
  - assert (Z0 : (0 # d == 0)%Q) by reflexivity. rewrite Z0. unfold eps53. split; lra.
  - rewrite Qmake_Qdiv. apply to_double_pos_err; lia.
  - unfold Qle in H; cbn in H; lia.
Qed.

Lemma to_double_nonneg x : (0 <= x)%Q -> (0 <= to_double x)%Q.
Proof.
  destruct x as [[|n|n] d]; intros H; unfold to_double; cbn [Qnum Qden].
  - apply Qle_refl.
  - apply to_double_pos_nonneg; lia.
  - unfold Qle in H; cbn in H; lia.
Qed.

Lemma to_double_le_int x B : B < 2 ^ 52 -> (0 <= x)%Q -> (x <= inject_Z B)%Q ->
  (to_double x <= inject_Z B)%Q.
Proof.
  destruct x as [[|n|n] d]; intros HB H0 H1; unfold to_double; cbn [Qnum Qden].
  - unfold Qle in H1 |- *; cbn in H1 |- *. lia.
  - apply to_double_pos_le_int; [lia|lia|exact HB|].
    unfold Qle in H1; cbn in H1. lia.
  - unfold Qle in H0; cbn in H0; lia.
Qed.

Lemma Qfloor_char z k : (inject_Z k <= z)%Q -> (z < inject_Z (k + 1))%Q -> Qfloor z = k.
Proof.
  intros H1 H2.
  assert (A : k <= Qfloor z) by (rewrite <- (Qfloor_Z k); apply Qfloor_resp_le; exact H1).
  assert (B : Qfloor z < k + 1)
    by (rewrite Zlt_Qlt; exact (Qle_lt_trans _ _ _ (Qfloor_le z) H2)).
  lia.
Qed.

Lemma Zlt_of_Qdiv a b c : 0 < c -> (inject_Z a < inject_Z b / inject_Z c)%Q -> a * c < b.
Proof.
  intros Hc H. rewrite Zlt_Qlt, inject_Z_mult.
  apply (Qmult_lt_r _ _ (inject_Z c)) in H; [|apply inject_Z_pos; exact Hc].
  setoid_replace (inject_Z b / inject_Z c * inject_Z c)%Q with (inject_Z b) in H
    by (field; apply inject_Z_nz; lia).
  exact H.
Qed.

Lemma Zle_of_Qdiv a b c : 0 < c -> (inject_Z b / inject_Z c <= inject_Z a)%Q -> b <= a * c.
Proof.
  intros Hc H. rewrite Zle_Qle, inject_Z_mult.
  apply (Qmult_le_r _ _ (inject_Z c)) in H; [|apply inject_Z_pos; exact Hc].
  setoid_replace (inject_Z b / inject_Z c * inject_Z c)%Q with (inject_Z b) in H
    by (field; apply inject_Z_nz; lia).
  exact H.
Qed.

(** Rounding [Y + 1/2] down, for [Y] within 1/2 of [c / t]: the result lies
    between the floor and the ceiling of [c / t]. *)
Lemma round_between Y c t : 0 < t ->
  (inject_Z c / inject_Z t - (1 # 2) < Y)%Q -> (Y < inject_Z c / inject_Z t + (1 # 2))%Q ->
  c / t <= Qfloor (Y + (1 # 2)) <= (c + t - 1) / t.
Proof.
  intros Ht H1 H2. set (k := Qfloor (Y + (1 # 2))).
  assert (K1 : (inject_Z k <= Y + (1 # 2))%Q) by apply Qfloor_le.
  assert (K2 : (Y + (1 # 2) < inject_Z (k + 1))%Q) by apply Qlt_floor.
  assert (U : (inject_Z c / inject_Z t + 1 == inject_Z (c + t) / inject_Z t)%Q)
    by (rewrite inject_Z_plus; field; apply inject_Z_nz; lia).
  assert (L1 : (inject_Z k < inject_Z (c + t) / inject_Z t)%Q) by (rewrite <- U; lra).
  assert (L2 : (inject_Z c / inject_Z t < inject_Z (k + 1))%Q)
    by (rewrite inject_Z_plus in *; lra).
  apply Zlt_of_Qdiv in L1; [|exact Ht].
  assert (L3 : c < (k + 1) * t).
  { rewrite Zlt_Qlt, inject_Z_mult.
    apply (Qmult_lt_r _ _ (inject_Z t)) in L2; [|apply inject_Z_pos; exact Ht].
    setoid_replace (inject_Z c / inject_Z t * inject_Z t)%Q with (inject_Z c) in L2
      by (field; apply inject_Z_nz; lia).
    exact L2. }
  split.
  - assert (c / t < k + 1) by (apply Z.div_lt_upper_bound; lia). lia.
  - apply Z.div_le_lower_bound; lia.
Qed.

(** Away from a tie, [Y] within [1 / (2 t)] of [c / t] rounds to the
    integer nearest to [c / t]. *)
Lemma round_nontie Y c t : 0 < t -> (2 * c + t) mod (2 * t) <> 0 ->
  (inject_Z c / inject_Z t - 1 / inject_Z (2 * t) < Y)%Q ->
  (Y < inject_Z c / inject_Z t + 1 / inject_Z (2 * t))%Q ->
  Qfloor (Y + (1 # 2)) = (2 * c + t) / (2 * t).
Proof.
  intros Ht Hm H1 H2.
  pose proof (Z.div_mod (2 * c + t) (2 * t) ltac:(lia)) as E.
  pose proof (Z.mod_pos_bound (2 * c + t) (2 * t) ltac:(lia)) as R.
  set (k := (2 * c + t) / (2 * t)) in *. set (r := (2 * c + t) mod (2 * t)) in *.
  assert (Lo : (inject_Z (2 * c + t - 1) / inject_Z (2 * t)
                == inject_Z c / inject_Z t - 1 / inject_Z (2 * t) + (1 # 2))%Q).
  { unfold Z.sub. rewrite !inject_Z_plus, !inject_Z_mult, inject_Z_opp.
    field. apply inject_Z_nz; lia. }
  assert (Hi : (inject_Z (2 * c + t + 1) / inject_Z (2 * t)
                == inject_Z c / inject_Z t + 1 / inject_Z (2 * t) + (1 # 2))%Q).
  { rewrite !inject_Z_plus, !inject_Z_mult.
    field. apply inject_Z_nz; lia. }
  apply Qfloor_char.
  - apply (Qle_trans _ (inject_Z (2 * c + t - 1) / inject_Z (2 * t))).
    + apply Qle_shift_div_l; [apply inject_Z_pos; lia|].
      rewrite <- inject_Z_mult, <- Zle_Qle. lia.
    + rewrite Lo. lra.
  - apply (Qlt_le_trans _ (inject_Z (2 * c + t + 1) / inject_Z (2 * t))).
    + rewrite Hi. lra.
    + apply Qle_shift_div_r; [apply inject_Z_pos; lia|].
      rewrite <- inject_Z_mult, <- Zle_Qle. lia.
Qed.

Lemma ratio_unit w t : 0 <= w <= t -> 0 < t ->
  (0 <= inject_Z w / inject_Z t)%Q /\ (inject_Z w / inject_Z t <= 1)%Q.
Proof.
  intros Hw Ht. split.
  - apply Qle_shift_div_l; [apply inject_Z_pos; exact Ht|].
    rewrite Qmult_0_l. change 0%Q with (inject_Z 0). rewrite <- Zle_Qle. lia.
  - apply Qle_shift_div_r; [apply inject_Z_pos; exact Ht|].
    rewrite Qmult_1_l. rewrite <- Zle_Qle. lia.
Qed.

Lemma half_t_bound t : 0 < t -> t <= 10 ^ 10 ->
  (1 # 20000000000 <= 1 / inject_Z (2 * t))%Q.
Proof.
  intros H1 H2. apply Qle_shift_div_l; [apply inject_Z_pos; lia|].
  rewrite inject_Z_mult. change (inject_Z 2) with 2%Q.
  assert (T : (inject_Z t <= 10000000000)%Q)
    by (change 10000000000%Q with (inject_Z (10 ^ 10)); rewrite <- Zle_Qle; exact H2).
  lra.
Qed.

Lemma gj_round w t : 0 <= w <= t -> 0 < t ->
  let p := to_fixed 4 (to_double (inject_Z w / inject_Z t)) in
  (10000 * w) / t <= p <= (10000 * w + t - 1) / t /\
  (t <= 10 ^ 10 -> (20000 * w + t) mod (2 * t) <> 0 -> p = (20000 * w + t) / (2 * t)).
Proof.
  intros Hw Ht p. unfold p, to_fixed. change (inject_Z (10 ^ Z.of_nat 4)) with 10000%Q.
  destruct (ratio_unit w t Hw Ht) as [X0 X1].
  set (x := (inject_Z w / inject_Z t)%Q) in *.
  destruct (to_double_err x X0) as [Y1 Y2].
  set (y := to_double x) in *.
  assert (EX : (inject_Z (10000 * w) / inject_Z t == x * 10000)%Q)
    by (unfold x; rewrite inject_Z_mult; field; apply inject_Z_nz; lia).
  unfold eps53 in *.
  split.
  - apply round_between; [exact Ht| rewrite EX; lra| rewrite EX; lra].
  - intros Hb Hm. replace (20000 * w) with (2 * (10000 * w)) by lia.
    pose proof (half_t_bound t Ht Hb).
    apply round_nontie; [exact Ht|replace (2 * (10000 * w)) with (20000 * w) by lia; exact Hm| |];
      rewrite EX; lra.
Qed.

Lemma p0_round w t : 0 <= w <= t -> 0 < t ->
  let p := to_fixed 2 (to_double (to_double (inject_Z w / inject_Z t) * inject_Z 100)) in
  (10000 * w) / t <= p <= (10000 * w + t - 1) / t /\
  (t <= 10 ^ 10 -> (20000 * w + t) mod (2 * t) <> 0 -> p = (20000 * w + t) / (2 * t)).
Proof.
  intros Hw Ht p. unfold p, to_fixed. change (inject_Z (10 ^ Z.of_nat 2)) with 100%Q.
  change (inject_Z 100) with 100%Q.
  destruct (ratio_unit w t Hw Ht) as [X0 X1].
  set (x := (inject_Z w / inject_Z t)%Q) in *.
  destruct (to_double_err x X0) as [Y1 Y2].
  pose proof (to_double_nonneg x X0) as Y0.
  set (y := to_double x) in *.
  assert (Z0 : (0 <= y * 100)%Q) by lra.
  destruct (to_double_err (y * 100) Z0) as [V1 V2].
  set (v := to_double (y * 100)) in *.
  assert (EX : (inject_Z (10000 * w) / inject_Z t == x * 10000)%Q)
    by (unfold x; rewrite inject_Z_mult; field; apply inject_Z_nz; lia).
  unfold eps53 in *.
  split.
  - apply round_between; [exact Ht| rewrite EX; lra| rewrite EX; lra].
  - intros Hb Hm. replace (20000 * w) with (2 * (10000 * w)) by lia.
    pose proof (half_t_bound t Ht Hb).
    apply round_nontie; [exact Ht|replace (2 * (10000 * w)) with (20000 * w) by lia; exact Hm| |];
      rewrite EX; lra.
Qed.

End Binary64Facts.

Import Binary64Facts.

(* ================================================================= *)
(** ** The sampler *)
(* ================================================================= *)

Module SamplerFacts.

Local Open Scope Z_scope.


Lemma byte_range (b : byte) : 0 <= Z.of_N (Byte.to_N b) < 256.
Proof. destruct b; cbn; lia. Qed.

Lemma be32_range (a b c d : byte) : 0 <= be32 a b c d < 2 ^ 32.
Proof.
  unfold be32.
  pose proof (byte_range a); pose proof (byte_range b);
  pose proof (byte_range c); pose proof (byte_range d). lia.
Qed.

Lemma gen_loop_inv (N : Z) (lim : jsval) :
  forall n es v rest, (List.length es <= n)%nat ->
  gen_loop N lim es = Some (v, rest) ->
  exists rejected d,
    es = List.concat (map bytes_of_draw rejected) ++ bytes_of_draw d ++ rest /\
    Forall (fun r => js_ge (draw r) lim = true) rejected /\
    js_ge (draw d) lim = false /\ v = js_rem (draw d) N.
Proof.
  induction n as [|n IH]; intros es v rest Hlen Hrun;
    destruct es as [|b0 [|b1 [|b2 [|b3 es]]]]; cbn in Hrun; try discriminate;
    cbn in Hlen; try lia.
  destruct (js_ge (be32 b0 b1 b2 b3) lim) eqn:Ege.
  - destruct (IH es v rest ltac:(lia) Hrun) as (rej & d & -> & Hrej & Hd & Hv).
    exists ((b0, b1, b2, b3) :: rej), d. repeat split; auto.
  - injection Hrun as <- <-. exists [], (b0, b1, b2, b3). repeat split; auto.
Qed.

Lemma gen_loop_accept (N : Z) (lim : jsval) rejected d rest :
  Forall (fun r => js_ge (draw r) lim = true) rejected ->
  js_ge (draw d) lim = false ->
  gen_loop N lim (List.concat (map bytes_of_draw rejected) ++ bytes_of_draw d ++ rest)
  = Some (js_rem (draw d) N, rest).
Proof.
  intros Hrej Hd. induction Hrej as [|[[[a b] c] e] rej Hr _ IH].
  - destruct d as [[[a b] c] e]. cbn in *. rewrite Hd. reflexivity.
  - cbn in *. rewrite Hr. exact IH.
Qed.

Lemma limit_pos (N : Z) : 1 <= N -> limit N = JInt (2 ^ 32 - 2 ^ 32 mod N).
Proof.
  intros HN. unfold limit, js_rem.
  rewrite (proj2 (Z.eqb_neq N 0)) by lia.
  rewrite Z.rem_mod_nonneg by lia. reflexivity.
Qed.


Lemma draw_range (d : draw4) : 0 <= draw d < 2 ^ 32.
Proof. destruct d as [[[a b] c] e]. apply be32_range. Qed.

(** A positive range: the value is [Int (draw mod N)] with [0 <= . < N]. *)
Lemma generateUniformRandom_pos (N : Z) es v rest :
  1 <= N -> generateUniformRandom N es = Some (v, rest) ->
  exists z, v = JInt z /\ 0 <= z < N.
Proof.
  intros HN Hrun. unfold generateUniformRandom in Hrun.
  destruct (gen_loop_inv N (limit N) _ es v rest (le_n _) Hrun)
    as (rej & d & _ & _ & _ & ->).
  pose proof (draw_range d).
  exists (draw d mod N). unfold js_rem.
  rewrite (proj2 (Z.eqb_neq N 0)) by lia.
  rewrite Z.rem_mod_nonneg by lia. split; [reflexivity|].
  apply Z.mod_pos_bound. lia.
Qed.

End SamplerFacts.

Import SamplerFacts.


(* ================================================================= *)
(** ** Reasoning about runs: what each step appends to the console *)
(* ================================================================= *)

Module GameFacts.

Local Open Scope Z_scope.


Section Keeps.

Variable P : list event -> Prop.

Lemma keeps_bind {A B} (m : M A) (k : A -> M B) (Q : A -> Prop) :
  keeps P m -> (forall s a s', m s = Ret a s' -> Q a) ->
  (forall a, Q a -> keeps P (k a)) -> keeps P (bind m k).
Proof.
  intros Hm HQ Hk s Hs. unfold bind. specialize (Hm s Hs).
  destruct (m s) as [a s'|s'] eqn:E; cbn in *; [|exact Hm].
  exact (Hk a (HQ s a s' E) s' Hm).
Qed.

Lemma keeps_bind_ {A B} (m : M A) (k : A -> M B) :
  keeps P m -> (forall a, keeps P (k a)) -> keeps P (bind m k).
Proof.
  intros Hm Hk. apply (keeps_bind m k (fun _ => True)); auto.
Qed.

Lemma keeps_ret {A} (a : A) : keeps P (ret a).
Proof. intros s Hs. exact Hs. Qed.

Lemma keeps_halt {A} : keeps P (@halt A).
Proof. intros s Hs. exact Hs. Qed.

Lemma keeps_get : keeps P get.
Proof. intros s Hs. exact Hs. Qed.

Lemma keeps_same_trace {A} (m : M A) :
  (forall s, trace (final (m s)) = trace s) -> keeps P m.
Proof. intros E s Hs. rewrite E. exact Hs. Qed.

Lemma keeps_log (e : event) : closed_nr P -> non_reveal e -> keeps P (log e).
Proof.
  intros HP He s Hs. cbn. apply HP; auto.
Qed.

End Keeps.

Lemma randomBytes_trace n s : trace (final (randomBytes n s)) = trace s.
Proof. unfold randomBytes. destruct (_ <=? _)%nat; reflexivity. Qed.

Lemma sample_trace n s : trace (final (sample n s)) = trace s.
Proof. unfold sample. destruct (generateUniformRandom _ _) as [[]|]; reflexivity. Qed.

Lemma randomInt_trace n s : trace (final (randomInt n s)) = trace s.
Proof.
  unfold randomInt. destruct (_ || _); [reflexivity|].
  destruct (randomInt_loop _ _ _) as [[]|]; reflexivity.
Qed.

Lemma trace_add_event e s : trace (add_event e s) = trace s ++ [e].
Proof. reflexivity. Qed.

Lemma input_loop_spec valid ins : forall s,
  (exists ext, trace (final (input_loop valid ins s)) = trace s ++ ext
               /\ Forall non_reveal ext) /\
  (forall p s', input_loop valid ins s = Ret p s' ->
     In p valid /\
     exists ext l, trace s' = trace s ++ ext ++ [EInput l] /\ Forall non_reveal ext).
Proof.
  induction ins as [|line rest IH]; intros s.
  - split; [exists []; rewrite app_nil_r; split; auto|]. discriminate.
  - cbn [input_loop].
    set (s1 := add_event (EInput line) (set_inputs rest s)).
    assert (T1 : trace s1 = trace s ++ [EInput line]) by reflexivity.
    assert (Rec : forall e, non_reveal e ->
      (exists ext, trace (final (input_loop valid rest (add_event e s1)))
                   = trace s ++ ext /\ Forall non_reveal ext) /\
      (forall p s', input_loop valid rest (add_event e s1) = Ret p s' ->
         In p valid /\ exists ext l, trace s' = trace s ++ ext ++ [EInput l]
                                    /\ Forall non_reveal ext)).
    { intros e He. destruct (IH (add_event e s1)) as [[ext [E F]] R].
      rewrite trace_add_event, T1 in E, R. split.
      - exists ([EInput line; e] ++ ext). rewrite E, <- !app_assoc. split; [reflexivity|].
        apply Forall_app; split; auto. repeat constructor; auto.
      - intros p s' Hr. destruct (R p s' Hr) as [Hin (ext' & l & E' & F')].
        split; [exact Hin|]. exists ([EInput line; e] ++ ext'), l.
        rewrite E', <- !app_assoc. split; [reflexivity|].
        apply Forall_app; split; auto. repeat constructor; auto. }
    destruct (string_dec (toLowerCase (trim line)) "x").
    { split; [|discriminate]. exists [EInput line; EExit].
      cbn [final]. rewrite trace_add_event, T1, <- app_assoc. split; [reflexivity|].
      repeat constructor. }
    destruct (string_dec (toLowerCase (trim line)) "?").
    { apply Rec. exact I. }
    destruct (parseInt (trim line) 10) as [parsed|]; [|apply Rec; exact I].
    destruct (existsb (Z.eqb parsed) valid) eqn:Ex; [|apply Rec; exact I].
    split.
    + exists [EInput line]. split; [reflexivity|]. repeat constructor.
    + intros p s' Hr. injection Hr as <- <-. split.
      * apply existsb_exists in Ex as [x [Hx Hpx]]. apply Z.eqb_eq in Hpx. subst. exact Hx.
      * exists [], line. split; [reflexivity|constructor].
Qed.

Lemma input_loop_answer valid ins : forall s p s',
  input_loop valid ins s = Ret p s' ->
  exists ext l, trace s' = trace s ++ ext ++ [EInput l] /\ Forall non_reveal ext /\
                parseInt (trim l) 10 = JInt p.
Proof.
  induction ins as [|line rest IH]; intros s p s' Hrun; [discriminate|].
  cbn [input_loop] in Hrun.
  set (s1 := add_event (EInput line) (set_inputs rest s)) in Hrun.
  assert (Rec : forall e, non_reveal e -> input_loop valid rest (add_event e s1) = Ret p s' ->
    exists ext l, trace s' = trace s ++ ext ++ [EInput l] /\ Forall non_reveal ext /\
                  parseInt (trim l) 10 = JInt p).
  { intros e He R. destruct (IH _ _ _ R) as (ext & l & E & F & P).
    exists ([EInput line; e] ++ ext), l. rewrite E. cbn. rewrite <- !app_assoc.
    split; [reflexivity|]. split; [|exact P].
    constructor; [exact I|constructor; [exact He|exact F]]. }
  destruct (string_dec _ "x"); [discriminate|].
  destruct (string_dec _ "?"); [exact (Rec ETable I Hrun)|].
  destruct (parseInt (trim line) 10) as [parsed|] eqn:P; [|exact (Rec EInvalid I Hrun)].
  destruct (existsb (Z.eqb parsed) valid); [|exact (Rec EInvalid I Hrun)].
  injection Hrun as <- <-. exists [], line. split; [reflexivity|]. split; [constructor|exact P].
Qed.

Lemma keeps_getUserInput P valid : closed_nr P -> keeps P (getUserInput valid).
Proof.
  intros HP s Hs. unfold getUserInput.
  destruct (input_loop_spec valid (inputs s) s) as [[ext [E F]] _].
  rewrite E. apply HP; auto.
Qed.

End GameFacts.

Import GameFacts.

Module RunFacts.

Local Open Scope Z_scope.

Section Hash.

Variable H : list byte -> list byte -> list byte.

Lemma new_FairRandom_trace n s : trace (final (new_FairRandom H n s)) = trace s.
Proof.
  unfold new_FairRandom, bind.
  pose proof (randomBytes_trace 32 s) as T1.
  destruct (randomBytes 32 s) as [k s1|s1]; cbn in T1; [|exact T1].
  pose proof (sample_trace n s1) as T2.
  destruct (sample n s1) as [v s2|s2]; cbn in T2 |- *; congruence.
Qed.

Lemma new_FairRandom_spec n s fr s' :
  new_FairRandom H n s = Ret fr s' ->
  trace s' = trace s /\ hmac fr = calculateHMAC H (key fr) (value fr) /\
  (1 <= n -> exists z, value fr = JInt z /\ 0 <= z < n).
Proof.
  intros Hrun. pose proof (new_FairRandom_trace n s) as T.
  rewrite Hrun in T. cbn in T. split; [exact T|].
  unfold new_FairRandom, bind in Hrun.
  destruct (randomBytes 32 s) as [k s1|s1]; [|discriminate].
  destruct (sample n s1) as [v s2|s2] eqn:E2; [|discriminate].
  cbn in Hrun. injection Hrun as <- _. cbn. split; [reflexivity|].
  intros Hn. unfold sample in E2.
  destruct (generateUniformRandom n (entropy s1)) as [[v' rest]|] eqn:G; [|discriminate].
  injection E2 as <- _. exact (generateUniformRandom_pos n _ _ _ Hn G).
Qed.


Section Methods.

Variable P : list event -> Prop.
Hypothesis HP : closed_nr P.
Hypothesis HS : session_ok H P.

Lemma keeps_new_FairRandom_then {A} n (k : FairRandom -> M A) :
  (forall fr, hmac fr = calculateHMAC H (key fr) (value fr) -> keeps P (k fr)) ->
  keeps P (bind (new_FairRandom H n) k).
Proof.
  intros Hk. apply (keeps_bind P _ _ (fun fr => hmac fr = calculateHMAC H (key fr) (value fr))).
  - apply keeps_same_trace. apply new_FairRandom_trace.
  - intros s a s' E. apply (new_FairRandom_spec n s a s' E).
  - exact Hk.
Qed.

Lemma keeps_userThrow : keeps P (userThrow H).
Proof.
  unfold userThrow. apply keeps_bind_; [apply keeps_get|]. intros s0.
  destruct (userDice s0) as [values|]; [|apply keeps_halt].
  apply keeps_new_FairRandom_then. intros fr Hfr. cbv zeta.
  apply HS; [exact Hfr|]. intros u.
  apply keeps_bind_; [apply keeps_log; [exact HP|exact I]|]. intros _. apply keeps_ret.
Qed.

Lemma keeps_computerThrow : keeps P (computerThrow H).
Proof.
  unfold computerThrow. apply keeps_bind_; [apply keeps_get|]. intros s0.
  destruct (computerDice s0) as [values|]; [|apply keeps_halt].
  apply keeps_new_FairRandom_then. intros fr Hfr. cbv zeta.
  apply HS; [exact Hfr|]. intros u.
  apply keeps_bind_; [apply keeps_log; [exact HP|exact I]|]. intros _. apply keeps_ret.
Qed.

Lemma keeps_turn_order : keeps P (turn_order H).
Proof.
  unfold turn_order. apply keeps_new_FairRandom_then. intros fr Hfr. cbv zeta.
  apply HS; [exact Hfr|]. intros u. apply keeps_ret.
Qed.

Lemma keeps_userSelectDice : keeps P userSelectDice.
Proof.
  unfold userSelectDice. apply keeps_bind_; [apply keeps_get|]. intros s0.
  apply keeps_bind_; [apply keeps_getUserInput; exact HP|]. intros sel.
  intros s1 Hs1. cbn. destruct (splice1 _ _). exact Hs1.
Qed.

Lemma keeps_computerSelectDice : keeps P computerSelectDice.
Proof.
  unfold computerSelectDice. apply keeps_bind_; [apply keeps_get|]. intros s0.
  apply keeps_bind_; [apply keeps_same_trace, randomInt_trace|]. intros idx.
  intros s1 Hs1. cbn. destruct (splice1 _ _) as [[values|] rest]; cbn; [|exact Hs1].
  apply HP; [exact Hs1|]. repeat constructor.
Qed.

Lemma keeps_declareWinner u c : keeps P (declareWinner u c).
Proof.
  unfold declareWinner. apply keeps_bind_; [apply keeps_log; [exact HP|exact I]|].
  intros _. apply keeps_log; [exact HP|exact I].
Qed.

Lemma keeps_start : keeps P (start H).
Proof.
  unfold start. apply keeps_bind_; [apply keeps_turn_order|]. intros b.
  apply keeps_bind_.
  { destruct b; (apply keeps_bind_; [apply keeps_log; [exact HP|exact I]|]); intros _;
      apply keeps_bind_; intros; auto using keeps_userSelectDice, keeps_computerSelectDice. }
  intros _. apply keeps_bind_; [apply keeps_computerThrow|]. intros c.
  apply keeps_bind_; [apply keeps_userThrow|]. intros u. apply keeps_declareWinner.
Qed.

End Methods.

End Hash.

End RunFacts.

Import RunFacts.

(* ================================================================= *)
(** ** Console invariants *)
(* ================================================================= *)

Module Invariants.

Local Open Scope Z_scope.


Lemma getUserInput_spec valid s :
  (exists ext, trace (final (getUserInput valid s)) = trace s ++ ext
               /\ Forall non_reveal ext) /\
  (forall p s', getUserInput valid s = Ret p s' ->
     In p valid /\
     exists ext l, trace s' = trace s ++ ext ++ [EInput l] /\ Forall non_reveal ext).
Proof. apply input_loop_spec. Qed.

Lemma snoc_split {A} (l1 l2 t : list A) x y :
  l1 ++ x :: l2 = t ++ [y] ->
  (l2 = [] /\ l1 = t /\ x = y) \/ (exists l2', t = l1 ++ x :: l2').
Proof.
  intros E. destruct l2 as [|z l2].
  - left. apply app_inj_tail in E as [-> ->]. auto.
  - right. destruct (exists_last (l := z :: l2) ltac:(discriminate)) as (l2' & a & Ea).
    rewrite Ea, app_comm_cons, app_assoc in E. apply app_inj_tail in E as [E _].
    exists l2'. symmetry. exact E.
Qed.

Lemma reveal_after_input_nil : reveal_after_input [].
Proof. intros pre id v k post E. destruct pre; discriminate. Qed.

Lemma reveal_after_input_snoc t e :
  reveal_after_input t -> non_reveal e -> reveal_after_input (t ++ [e]).
Proof.
  intros Ht He pre id v k post E. symmetry in E.
  destruct (snoc_split _ _ _ _ _ E) as [(_ & _ & <-) | (l2' & Et)].
  - destruct He.
  - exact (Ht pre id v k l2' Et).
Qed.

Lemma reveal_after_input_closed : closed_nr reveal_after_input.
Proof.
  intros t ext Ht Hext. induction ext as [|e ext IH] using rev_ind.
  - rewrite app_nil_r. exact Ht.
  - apply Forall_app in Hext as [H1 H2]. inversion H2; subst.
    rewrite app_assoc. apply reveal_after_input_snoc; auto.
Qed.

Lemma reveal_after_input_reveal t id v k :
  reveal_after_input t ->
  (exists a h b l u, t = a ++ EHmac id h :: b ++ [EInput l] /\ parseInt (trim l) 10 = JInt u) ->
  reveal_after_input (t ++ [EReveal id v k]).
Proof.
  intros Ht Hc pre id' v' k' post E. symmetry in E.
  destruct (snoc_split _ _ _ _ _ E) as [(_ & <- & Ee) | (l2' & Et)].
  - injection Ee as -> _ _. exact Hc.
  - exact (Ht pre id' v' k' l2' Et).
Qed.

Lemma session_reveal_after_input H : session_ok H reveal_after_input.
Proof.
  intros A fr valid K Hfr HK s Hs. unfold bind, log. cbn beta iota.
  set (s1 := add_event (EHmac (sid fr) (hmac fr)) s).
  assert (Hs1 : reveal_after_input (trace s1)).
  { apply reveal_after_input_snoc; [exact Hs|exact I]. }
  destruct (getUserInput_spec valid s1) as [[ext [E F]] _].
  destruct (getUserInput valid s1) as [u s2|s2] eqn:G; cbn in E |- *.
  - destruct (input_loop_answer valid _ _ _ _ G) as (ext' & l & E2 & F2 & P2).
    apply HK. rewrite trace_add_event. apply reveal_after_input_reveal.
    + rewrite E2. apply reveal_after_input_closed; [exact Hs1|].
      apply Forall_app; split; [exact F2|repeat constructor].
    + exists (trace s), (hmac fr), ext', l, u. split; [|exact P2]. rewrite E2. unfold s1.
      rewrite trace_add_event, <- app_assoc. reflexivity.
  - rewrite E. apply reveal_after_input_closed; auto.
Qed.

Lemma reveal_matches_closed H : closed_nr (reveal_matches H).
Proof.
  intros t ext Ht Hext id v k Hin. apply in_app_or in Hin as [Hin|Hin].
  - destruct (Ht id v k Hin) as (key & Ek & Hh).
    exists key. split; [exact Ek|]. apply in_or_app. left. exact Hh.
  - rewrite Forall_forall in Hext. destruct (Hext _ Hin).
Qed.

Lemma session_reveal_matches H : session_ok H (reveal_matches H).
Proof.
  intros A fr valid K Hfr HK s Hs. unfold bind, log. cbn beta iota.
  set (s1 := add_event (EHmac (sid fr) (hmac fr)) s).
  assert (Hs1 : reveal_matches H (trace s1)).
  { apply (reveal_matches_closed H); [exact Hs|repeat constructor]. }
  destruct (getUserInput_spec valid s1) as [[ext [E F]] R].
  destruct (getUserInput valid s1) as [u s2|s2] eqn:G; cbn in E |- *.
  - destruct (R u s2 eq_refl) as [_ (ext' & l & E2 & F2)].
    apply HK. rewrite trace_add_event.
    intros id v k Hin. apply in_app_or in Hin as [Hin|[Hin|[]]].
    + rewrite E2 in Hin |- *.
      assert (Hs2 : reveal_matches H (trace s1 ++ ext' ++ [EInput l])).
      { apply (reveal_matches_closed H); [exact Hs1|].
        apply Forall_app; split; [exact F2|repeat constructor]. }
      destruct (Hs2 id v k Hin) as (key0 & Ek & Hh).
      exists key0. split; [exact Ek|]. apply in_or_app. left. exact Hh.
    + injection Hin as <- <- <-. exists (key fr). split; [reflexivity|].
      apply in_or_app. left. rewrite E2. apply in_or_app. left.
      unfold s1. rewrite trace_add_event, <- Hfr. apply in_or_app. right. left. reflexivity.
  - rewrite E. apply (reveal_matches_closed H); auto.
Qed.

Lemma starts_with_closed t0 : closed_nr (starts_with t0).
Proof.
  intros t ext [e0 ->] _. exists (e0 ++ ext). rewrite app_assoc. reflexivity.
Qed.

Lemma session_starts_with H t0 : session_ok H (starts_with t0).
Proof.
  intros A fr valid K Hfr HK s [e0 Hs]. unfold bind, log. cbn beta iota.
  set (s1 := add_event (EHmac (sid fr) (hmac fr)) s).
  destruct (getUserInput_spec valid s1) as [[ext [E F]] R].
  destruct (getUserInput valid s1) as [u s2|s2] eqn:G; cbn in E |- *.
  - destruct (R u s2 eq_refl) as [_ (ext' & l & E2 & F2)].
    apply HK. rewrite trace_add_event, E2. unfold s1. cbn [trace add_event]. rewrite Hs.
    exists (e0 ++ [EHmac (sid fr) (hmac fr)] ++ (ext' ++ [EInput l]) ++ [EReveal (sid fr) (value fr) (revealKey fr)]).
    rewrite <- !app_assoc. reflexivity.
  - rewrite E. unfold s1. cbn [trace add_event]. rewrite Hs.
    exists (e0 ++ [EHmac (sid fr) (hmac fr)] ++ ext). rewrite <- !app_assoc. reflexivity.
Qed.

End Invariants.

Import Invariants.

(* ================================================================= *)
(** ** Throws *)
(* ================================================================= *)

Module ThrowFacts.

Local Open Scope Z_scope.


Lemma userThrow_body H s values :
  userDice s = Some values -> userThrow H s = throw_body H values s.
Proof.
  intros Hd. unfold userThrow. unfold bind at 1. unfold get. cbv beta iota.
  rewrite Hd. reflexivity.
Qed.

Lemma computerThrow_body H s values :
  computerDice s = Some values -> computerThrow H s = throw_body H values s.
Proof.
  intros Hd. unfold computerThrow. unfold bind at 1. unfold get. cbv beta iota.
  rewrite Hd. reflexivity.
Qed.

Lemma in_range u n : In u (range n) -> 0 <= u < Z.of_nat n.
Proof.
  unfold range. intros Hin. apply in_map_iff in Hin as [k [<- Hk]].
  apply in_seq in Hk. lia.
Qed.

Lemma throw_body_spec H values s face s' :
  (0 < List.length values)%nat ->
  throw_body H values s = Ret face s' ->
  let F := Z.of_nat (List.length values) in
  exists u v t,
    trace s' = t ++ [ESum u (JInt v) (JInt ((u + v) mod F))] /\
    0 <= u < F /\ 0 <= v < F /\ 0 <= (u + v) mod F < F /\
    face = nth_error values (Z.to_nat ((u + v) mod F)) /\ face <> None.
Proof.
  intros Hlen Hrun. cbv zeta. unfold throw_body, bind, log, ret in Hrun.
  destruct (new_FairRandom H _ s) as [fr s1|s1] eqn:E1; [|discriminate].
  cbv beta iota in Hrun.
  destruct (getUserInput _ _) as [u s2|s2] eqn:E2; [|discriminate].
  cbv beta iota zeta in Hrun. injection Hrun as <- <-.
  destruct (new_FairRandom_spec H _ s fr s1 E1) as (_ & _ & Hv).
  destruct (Hv ltac:(lia)) as (z & Ez & Hz).
  destruct (getUserInput_spec (range (List.length values))
             (add_event (EHmac (sid fr) (hmac fr)) s1)) as [_ R].
  destruct (R u s2 E2) as [Hu _]. apply in_range in Hu.
  set (F := Z.of_nat (List.length values)) in *.
  assert (Hc : combine u (value fr) F = JInt ((u + z) mod F)).
  { rewrite Ez. unfold combine, js_rem.
    rewrite (proj2 (Z.eqb_neq F 0)) by lia.
    rewrite Z.rem_mod_nonneg by lia. reflexivity. }
  assert (Hm : 0 <= (u + z) mod F < F) by (apply Z.mod_pos_bound; lia).
  exists u, z, (trace s2 ++ [EReveal (sid fr) (value fr) (revealKey fr)]).
  cbn [trace add_event]. rewrite Hc, Ez, <- !app_assoc.
  repeat split; try lia.
  - unfold roll. rewrite (proj2 (Z.ltb_ge _ 0)) by lia. reflexivity.
  - unfold roll. rewrite (proj2 (Z.ltb_ge _ 0)) by lia.
    apply nth_error_Some. lia.
Qed.

End ThrowFacts.

Import ThrowFacts.

(** Entropy bytes taken by [crypto.randomBytes(n)] when the stream starts with them. *)
Lemma randomBytes_app n (k rest : list byte) s :
  List.length k = n -> entropy s = k ++ rest ->
  randomBytes n s = Ret k (set_entropy rest s).
Proof.
  intros Hk Es. unfold randomBytes. rewrite Es, length_app, Hk.
  rewrite (proj2 (Nat.leb_le n (n + List.length rest))) by lia.
  rewrite firstn_app, skipn_app, Hk, Nat.sub_diag, firstn_all2, skipn_all2 by lia.
  cbn. rewrite app_nil_r. reflexivity.
Qed.


(** Running a [bind] whose first step is known. *)
Lemma bind_ret_eq {A B} (m : M A) (k : A -> M B) s a s' :
  m s = Ret a s' -> bind m k s = k a s'.
Proof. intros E. unfold bind. rewrite E. reflexivity. Qed.

Lemma bind_log_eq {A B} e (f : unit -> M A) (g : A -> M B) s :
  bind (bind (log e) f) g s = bind (f tt) g (add_event e s).
Proof. reflexivity. Qed.

(** Off-diagonal cells of the two probability tables. *)
Lemma cell_calculateProbabilities dice i j d1 d2 :
  i <> j -> nth_error dice i = Some d1 -> nth_error dice j = Some d2 ->
  cell i j (calculateProbabilities dice) = Some (gj_cell_of d1 d2).
Proof.
  intros Hij Hi Hj. unfold cell, calculateProbabilities.
  rewrite imap_nth, Hi. cbn [option_map]. rewrite imap_nth, Hj. cbn [option_map].
  rewrite (proj2 (Nat.eqb_neq i j) Hij). reflexivity.
Qed.

Lemma cell_probability_table dice i j d1 d2 :
  i <> j -> nth_error dice i = Some d1 -> nth_error dice j = Some d2 ->
  cell i j (probability_table dice) = Some (PCell (calculateProbability d1 d2)).
Proof.
  intros Hij Hi Hj. unfold cell, probability_table.
  rewrite imap_nth, Hi. cbn [option_map]. rewrite imap_nth, Hj. cbn [option_map].
  rewrite (proj2 (Nat.eqb_neq i j) Hij). reflexivity.
Qed.

(* ================================================================= *)
(** * Claims *)
(* ================================================================= *)

(** C3: in every run of the game, from any arguments, typed lines and
    CSPRNG bytes, each line revealing the key and value of a session
    ([My selection ... (KEY=...)] or [My number is ... (KEY=...)]) comes
    after the HMAC of that same session, and directly after the line the
    user typed after that HMAC and the input loop accepted (a line
    [parseInt] reads as a number): nothing is revealed before the
    counterpart's input has been received. *)
Theorem C3_reveal_after_input :
  forall H configs ins es,
    reveal_after_input (trace (final (start H (new_DiceGame configs ins es)))).
Proof.
  intros H configs ins es.
  apply (keeps_start H reveal_after_input reveal_after_input_closed
           (session_reveal_after_input H)).
  exact reveal_after_input_nil.
Qed.

(** C6: the commitment is a function of (key, value) alone, so verifying
    the revealed key and value against their own commitment succeeds, in
    game.js and in part_000; and in every run of the game each revealed
    key and value verify against the HMAC published for that session. *)
Theorem C6_commit_verify :
  (forall H key value, verify H key value (calculateHMAC H key value) = true) /\
  (forall H key value, verify_part000 H key value (generateHMAC H key value) = true) /\
  (forall H configs ins es,
     reveal_matches H (trace (final (start H (new_DiceGame configs ins es))))).
Proof.
  split; [|split].
  - intros H key value. unfold verify. apply String.eqb_refl.
  - intros H key value. unfold verify_part000. apply String.eqb_refl.
  - intros H configs ins es.
    apply (keeps_start H (reveal_matches H) (reveal_matches_closed H)
             (session_reveal_matches H)).
    intros id v k Hin. destruct Hin.
Qed.

(** C10: on every pair of dice, the nested [forEach] count of game.js and
    the nested [for ... of] count of part_000 give the same wins and the
    same total; cell (i, j) of each table, for i <> j, is computed from
    [dice[i]] and [dice[j]] by these counts. *)
Theorem C10_engines_agree :
  forall dice i j d1 d2,
    i <> j -> nth_error dice i = Some d1 -> nth_error dice j = Some d2 ->
    gj_counts d1 d2 = fraction (calculateProbability d1 d2) /\
    cell i j (calculateProbabilities dice) = Some (gj_cell_of d1 d2) /\
    cell i j (probability_table dice) = Some (PCell (calculateProbability d1 d2)).
Proof.
  intros dice i j d1 d2 Hij Hi Hj. split; [|split].
  - unfold gj_counts. rewrite calculateProbability_fraction, count_wins_spec.
    reflexivity.
  - apply cell_calculateProbabilities; assumption.
  - apply cell_probability_table; assumption.
Qed.

Lemma C10_engines_agree_witness :
  (1 <> 2)%nat /\ nth_error [die1; die2; die3] 1 = Some die2 /\
  nth_error [die1; die2; die3] 2 = Some die3 /\
  gj_counts die2 die3 = fraction (calculateProbability die2 die3).
Proof.
  split; [lia|]. split; [reflexivity|]. split; [reflexivity|].
  exact (proj1 (C10_engines_agree [die1; die2; die3] 1 2 die2 die3
                  ltac:(lia) eq_refl eq_refl)).
Defined.

(** C7: for two dice with F faces each, the wins of each against the
    other (as counted by part_000's [calculateProbability], and as counted
    by game.js) plus the ties make up all F * F face pairs. *)
Theorem C7_wins_ties_complement :
  forall F d1 d2, List.length d1 = F -> List.length d2 = F ->
    (fst (fraction (calculateProbability d1 d2))
     + fst (fraction (calculateProbability d2 d1)) + spec_ties d1 d2 = F * F)%nat /\
    (count_wins d1 d2 + count_wins d2 d1 + spec_ties d1 d2 = F * F)%nat.
Proof.
  intros F d1 d2 H1 H2.
  rewrite !calculateProbability_fraction, !count_wins_spec. cbn [fst].
  pose proof (wins_ties_total d1 d2) as T. rewrite H1, H2 in T. split; exact T.
Qed.

Lemma C7_wins_ties_complement_witness :
  List.length die1 = 6%nat /\ List.length die2 = 6%nat /\
  (fst (fraction (calculateProbability die1 die2))
   + fst (fraction (calculateProbability die2 die1)) + spec_ties die1 die2 = 6 * 6)%nat.
Proof.
  split; [reflexivity|]. split; [reflexivity|].
  exact (proj1 (C7_wins_ties_complement 6 die1 die2 eq_refl eq_refl)).
Defined.

(** C2: for dice of F > 0 faces each and i <> j, cell (i, j) of part_000's
    table holds wins = #{(a, b) in dice[i] x dice[j] | a > b} and total
    F * F. Its percentage [(wins / total * 100).toFixed(2)], as [p] units
    of 0.01, and the game.js cell [(wins / total).toFixed(4)], as [q]
    units of 10^-4, both write 100 * wins / (F * F) with two decimals:
    [p] and [q] lie between the floor and the ceiling of
    10000 * wins / (F * F), and are its nearest integer whenever that
    quotient is not a tie (a half-integer) and F <= 100000. On a tie the
    binary64 value of the quotient decides the rounding (58 wins of 1600
    show as 3.62). For die1 = [2,2,4,4,9,9] against die2 = [1,1,6,6,8,8]
    this is 20/36, 55.56% and 0.5556. *)
Theorem C2_probability_cell :
  (forall dice F i j di dj,
     (0 < F)%nat -> Forall (fun d => List.length d = F) dice -> i <> j ->
     nth_error dice i = Some di -> nth_error dice j = Some dj ->
     let w := Z.of_nat (spec_wins di dj) in
     let t := Z.of_nat (F * F) in
     exists p q,
       cell i j (probability_table dice)
       = Some (PCell {| fraction := (spec_wins di dj, F * F)%nat; percentage := Some p |}) /\
       cell i j (calculateProbabilities dice) = Some (GFixed q) /\
       ((10000 * w) / t <= p <= (10000 * w + t - 1) / t)%Z /\
       ((10000 * w) / t <= q <= (10000 * w + t - 1) / t)%Z /\
       ((Z.of_nat F <= 100000)%Z -> ((20000 * w + t) mod (2 * t) <> 0)%Z ->
        p = ((20000 * w + t) / (2 * t))%Z /\ q = ((20000 * w + t) / (2 * t))%Z)) /\
  cell 0 1 (probability_table [die1; die2; die3])
  = Some (PCell {| fraction := (20, 36)%nat; percentage := Some 5556%Z |}) /\
  cell 0 1 (calculateProbabilities [die1; die2; die3]) = Some (GFixed 5556%Z).
Proof.
  split; [|split; vm_compute; reflexivity].
  intros dice F i j di dj HF Hall Hij Hi Hj w t.
  assert (Li : List.length di = F)
    by (apply (proj1 (Forall_forall _ _) Hall), (nth_error_In _ _ Hi)).
  assert (Lj : List.length dj = F)
    by (apply (proj1 (Forall_forall _ _) Hall), (nth_error_In _ _ Hj)).
  assert (HFF : (F * F =? 0)%nat = false) by (apply Nat.eqb_neq; nia).
  pose proof (spec_wins_le di dj) as Hle. rewrite Li, Lj in Hle.
  assert (Hw : (0 <= w <= t)%Z) by (unfold w, t; lia).
  assert (Ht : (0 < t)%Z) by (unfold t; nia).
  assert (Hb : (Z.of_nat F <= 100000)%Z -> (t <= 10 ^ 10)%Z)
    by (intros HF'; unfold t; rewrite Nat2Z.inj_mul; change (10 ^ 10)%Z with (100000 * 100000)%Z; nia).
  destruct (p0_round w t Hw Ht) as [P1 P2].
  destruct (gj_round w t Hw Ht) as [G1 G2].
  eexists; eexists. split; [|split; [|split; [exact P1|split; [exact G1|]]]].
  - rewrite (cell_probability_table dice i j di dj Hij Hi Hj).
    pose proof (calculateProbability_fraction di dj) as Ef.
    pose proof (calculateProbability_percentage di dj) as Ep.
    destruct (calculateProbability di dj) as [fr pc]. cbn [fraction percentage] in Ef, Ep.
    rewrite Li, Lj in Ef. subst fr. rewrite Ep, HFF. reflexivity.
  - rewrite (cell_calculateProbabilities dice i j di dj Hij Hi Hj).
    unfold gj_cell_of, gj_counts. rewrite count_wins_spec, Li, Lj, HFF.
    reflexivity.
  - intros HF' Hm. split; [apply P2|apply G2]; auto.
Qed.

Lemma C2_probability_cell_witness :
  (0 < 6)%nat /\ Forall (fun d => List.length d = 6%nat) [die1; die2; die3] /\
  exists p q,
    cell 0 1 (probability_table [die1; die2; die3])
    = Some (PCell {| fraction := (spec_wins die1 die2, 6 * 6)%nat; percentage := Some p |}) /\
    cell 0 1 (calculateProbabilities [die1; die2; die3]) = Some (GFixed q) /\
    ((10000 * 20) / 36 <= p <= (10000 * 20 + 36 - 1) / 36)%Z.
Proof.
  split; [lia|]. split; [repeat constructor|].
  destruct (proj1 C2_probability_cell [die1; die2; die3] 6%nat 0%nat 1%nat die1 die2
              ltac:(lia) ltac:(repeat constructor) ltac:(lia) eq_refl eq_refl)
    as (p & q & A & B & C & _).
  exists p, q. split; [exact A|]. split; [exact B|]. exact C.
Defined.

Local Open Scope Z_scope.

(** C4: for N >= 1, [generateUniformRandom N] uses the limit
    2^32 - (2^32 mod N), skips every 32-bit draw >= limit, and returns
    draw mod N for the first draw below it, a value in [0, N); conversely
    every such stream of draws gives that value. *)
Theorem C4_rejection_sampler :
  (forall N es v rest, 1 <= N -> generateUniformRandom N es = Some (v, rest) ->
     limit N = JInt (2 ^ 32 - 2 ^ 32 mod N) /\
     exists rejected d,
       es = List.concat (map bytes_of_draw rejected) ++ bytes_of_draw d ++ rest /\
       Forall (fun r => 2 ^ 32 - 2 ^ 32 mod N <= draw r) rejected /\
       draw d < 2 ^ 32 - 2 ^ 32 mod N /\
       v = JInt (draw d mod N) /\ 0 <= draw d mod N < N) /\
  (forall N rejected d rest, 1 <= N ->
     Forall (fun r => 2 ^ 32 - 2 ^ 32 mod N <= draw r) rejected ->
     draw d < 2 ^ 32 - 2 ^ 32 mod N ->
     generateUniformRandom N
       (List.concat (map bytes_of_draw rejected) ++ bytes_of_draw d ++ rest)
     = Some (JInt (draw d mod N), rest)).
Proof.
  split.
  - intros N es v rest HN Hrun. pose proof (limit_pos N HN) as L.
    split; [exact L|].
    unfold generateUniformRandom in Hrun. rewrite L in Hrun.
    destruct (gen_loop_inv N _ _ es v rest (le_n _) Hrun)
      as (rej & d & Es & Hrej & Hd & Hv).
    pose proof (draw_range d) as Rd.
    exists rej, d. split; [exact Es|]. split.
    + eapply Forall_impl; [|exact Hrej]. intros r Hr. unfold js_ge in Hr.
      apply Z.leb_le. exact Hr.
    + unfold js_ge in Hd. apply Z.leb_gt in Hd. split; [exact Hd|].
      unfold js_rem in Hv. rewrite (proj2 (Z.eqb_neq N 0)) in Hv by lia.
      rewrite Z.rem_mod_nonneg in Hv by lia. split; [exact Hv|].
      apply Z.mod_pos_bound. lia.
  - intros N rej d rest HN Hrej Hd. unfold generateUniformRandom.
    rewrite (limit_pos N HN), gen_loop_accept.
    + pose proof (draw_range d). unfold js_rem.
      rewrite (proj2 (Z.eqb_neq N 0)) by lia.
      rewrite Z.rem_mod_nonneg by lia. reflexivity.
    + eapply Forall_impl; [|exact Hrej]. intros r Hr. unfold js_ge.
      apply Z.leb_le. exact Hr.
    + unfold js_ge. apply Z.leb_gt. exact Hd.
Qed.

Lemma C4_rejection_sampler_witness :
  1 <= 6 /\
  generateUniformRandom 6 [xff; xff; xff; xff; x00; x00; x00; x07] = Some (JInt 1, []) /\
  limit 6 = JInt (2 ^ 32 - 2 ^ 32 mod 6).
Proof.
  assert (H1 : 1 <= 6) by lia.
  assert (H2 : generateUniformRandom 6 [xff; xff; xff; xff; x00; x00; x00; x07]
               = Some (JInt 1, [])) by (vm_compute; reflexivity).
  split; [exact H1|]. split; [exact H2|].
  exact (proj1 (proj1 C4_rejection_sampler 6 _ _ _ H1 H2)).
Defined.




(** C1: once a die with F > 0 faces is selected, [userThrow] and
    [computerThrow] end by printing [userInput + computerValue = result]
    with the user's input u in [0, F), the committed value v in [0, F)
    and result = (u + v) mod F in [0, F), and return the face of the die
    at index result, which exists. For F = 6, committed value 3 and input
    4 the result is 1 and the face at index 1 is returned. *)
Theorem C1_throw_combined_face :
  (forall H s values face s',
     userDice s = Some values -> (0 < List.length values)%nat ->
     userThrow H s = Ret face s' ->
     let F := Z.of_nat (List.length values) in
     exists u v t,
       trace s' = t ++ [ESum u (JInt v) (JInt ((u + v) mod F))] /\
       0 <= u < F /\ 0 <= v < F /\ 0 <= (u + v) mod F < F /\
       face = nth_error values (Z.to_nat ((u + v) mod F)) /\ face <> None) /\
  (forall H s values face s',
     computerDice s = Some values -> (0 < List.length values)%nat ->
     computerThrow H s = Ret face s' ->
     let F := Z.of_nat (List.length values) in
     exists u v t,
       trace s' = t ++ [ESum u (JInt v) (JInt ((u + v) mod F))] /\
       0 <= u < F /\ 0 <= v < F /\ 0 <= (u + v) mod F < F /\
       face = nth_error values (Z.to_nat ((u + v) mod F)) /\ face <> None) /\
  (forall H,
     match userThrow H (mkst ["4"%string] (zeros 32 ++ [x00; x00; x00; x03]) []
                             (Some die1) None 0 []) with
     | Ret face s' => (face, last (trace s') EExit)
     | Halt _ => (None, EExit)
     end = (nth_error die1 1, ESum 4 (JInt 3) (JInt 1))).
Proof.
  split; [|split].
  - intros H s values face s' Hd Hlen Hrun.
    rewrite (userThrow_body H s values Hd) in Hrun.
    exact (throw_body_spec H values s face s' Hlen Hrun).
  - intros H s values face s' Hd Hlen Hrun.
    rewrite (computerThrow_body H s values Hd) in Hrun.
    exact (throw_body_spec H values s face s' Hlen Hrun).
  - intros H. vm_compute. reflexivity.
Qed.

Lemma C1_throw_combined_face_witness :
  exists face s',
    userThrow (fun _ m => m)
      (mkst ["4"%string] (zeros 32 ++ [x00; x00; x00; x03]) [] (Some die1) None 0 [])
    = Ret face s' /\
    let F := Z.of_nat (List.length die1) in
    exists u v t,
      trace s' = t ++ [ESum u (JInt v) (JInt ((u + v) mod F))] /\
      0 <= u < F /\ 0 <= v < F /\ 0 <= (u + v) mod F < F /\
      face = nth_error die1 (Z.to_nat ((u + v) mod F)) /\ face <> None.
Proof.
  assert (E : exists face s',
    userThrow (fun _ m => m)
      (mkst ["4"%string] (zeros 32 ++ [x00; x00; x00; x03]) [] (Some die1) None 0 [])
    = Ret face s') by (vm_compute; do 2 eexists; reflexivity).
  destruct E as (face & s' & E). exists face, s'. split; [exact E|].
  exact (proj1 C1_throw_combined_face (fun _ m => m)
           (mkst ["4"%string] (zeros 32 ++ [x00; x00; x00; x03]) [] (Some die1) None 0 [])
           die1 face s' eq_refl ltac:(cbn; lia) E).
Defined.

(** C8: in game.js, when the CSPRNG gives the key [key] and then the draw
    1, so that the committed value is 1, and the user guesses 0, the
    turn-order step prints the HMAC of (key, 1), reads "0", reveals 1 and
    [key], and reports that the user did not guess; the run goes on with
    "I make the first move!". The combined result (0 + 1) mod 2 is 1, a
    guess matches exactly when the combined result is 0, and part_000's
    [determineTurnOrder] gives the first move to the computer as well. *)
Theorem C8_turn_order_scenario :
  (forall H configs ins key es, List.length key = 32%nat ->
     let s0 := new_DiceGame configs ("0"%string :: ins) (key ++ [x00; x00; x00; x01] ++ es) in
     let first := [EHmac 0 (calculateHMAC H key (JInt 1)); EInput "0"%string;
                   EReveal 0 (JInt 1) (hex key)] in
     (exists s1, turn_order H s0 = Ret false s1 /\ trace s1 = first) /\
     starts_with (first ++ [EFirstMove Computer]) (trace (final (start H s0)))) /\
  combine 0 (JInt 1) 2 = JInt 1 /\
  (forall g v, 0 <= g < 2 -> 0 <= v < 2 -> strict_eq g (JInt v) = ((g + v) mod 2 =? 0)) /\
  determineTurnOrder 1 "0" = Computer.
Proof.
  split; [|split; [reflexivity|split; [|reflexivity]]].
  - intros H configs ins key es Hk s0 first.
    assert (Hnf : new_FairRandom H 2 s0
                  = Ret (mkFR 2 key (JInt 1) (calculateHMAC H key (JInt 1)) 0)
                        (mkst ("0"%string :: ins) es configs None None 1 [])).
    { unfold new_FairRandom.
      rewrite (bind_ret_eq _ _ _ _ _
                 (randomBytes_app 32 key ([x00; x00; x00; x01] ++ es) s0 Hk eq_refl)).
      reflexivity. }
    assert (Ht : turn_order H s0 = Ret false (mkst ins es configs None None 1 first)).
    { unfold turn_order. rewrite (bind_ret_eq _ _ _ _ _ Hnf). reflexivity. }
    split; [exists (mkst ins es configs None None 1 first); split; [exact Ht|reflexivity]|].
    unfold start. rewrite (bind_ret_eq _ _ _ _ _ Ht). cbv beta iota.
    rewrite bind_log_eq.
    match goal with
    | |- starts_with ?T (trace (final (?m ?s))) =>
        assert (K : keeps (starts_with T) m); [|apply K; exists []; rewrite app_nil_r; reflexivity]
    end.
    pose proof (starts_with_closed (first ++ [EFirstMove Computer])) as HP.
    pose proof (session_starts_with H (first ++ [EFirstMove Computer])) as HS.
    apply keeps_bind_.
    + apply keeps_bind_; [apply keeps_computerSelectDice; exact HP|].
      intros _. apply keeps_userSelectDice; exact HP.
    + intros _. apply keeps_bind_; [apply keeps_computerThrow; assumption|]. intros c.
      apply keeps_bind_; [apply keeps_userThrow; assumption|]. intros u.
      apply keeps_declareWinner; exact HP.
  - intros g v Hg Hv. unfold strict_eq.
    assert (g = 0 \/ g = 1) as [-> | ->] by lia;
    assert (v = 0 \/ v = 1) as [-> | ->] by lia; reflexivity.
Qed.

Lemma C8_turn_order_scenario_witness :
  List.length (zeros 32) = 32%nat /\
  exists s1,
    turn_order (fun _ m => m)
      (new_DiceGame [die1; die2; die3] ["0"%string] (zeros 32 ++ [x00; x00; x00; x01] ++ []))
    = Ret false s1 /\
    trace s1 = [EHmac 0 (calculateHMAC (fun _ m => m) (zeros 32) (JInt 1));
                EInput "0"%string; EReveal 0 (JInt 1) (hex (zeros 32))].
Proof.
  split; [reflexivity|].
  exact (proj1 (proj1 C8_turn_order_scenario (fun _ m => m) [die1; die2; die3] []
                  (zeros 32) [] eq_refl)).
Defined.

(** C9 (code_bug): game.js's [parseDice] rejects only tokens on which
    [isNaN] holds, so it accepts the non-integer token "2.5" (read by
    [parseInt] as 2) and the empty token "" (read as [NaN]); part_000's
    [DiceConfiguration] rejects "2.5" but accepts "" (read by [Number] as 0). *)
Theorem C9_parser_accepts_non_integers :
  parseDice ["2.5,2,4,4,9,9"; "1,1,6,6,8,8"; "3,3,5,5,7,7"]%string
  = Ok [[JInt 2; JInt 2; JInt 4; JInt 4; JInt 9; JInt 9];
        [JInt 1; JInt 1; JInt 6; JInt 6; JInt 8; JInt 8];
        [JInt 3; JInt 3; JInt 5; JInt 5; JInt 7; JInt 7]] /\
  parseDice ["1,,2,3,4,5"; "1,1,6,6,8,8"; "3,3,5,5,7,7"]%string
  = Ok [[JInt 1; JNaN; JInt 2; JInt 3; JInt 4; JInt 5];
        [JInt 1; JInt 1; JInt 6; JInt 6; JInt 8; JInt 8];
        [JInt 3; JInt 3; JInt 5; JInt 5; JInt 7; JInt 7]] /\
  DiceConfiguration ["2.5,2,4,4,9,9"; "1,1,6,6,8,8"; "3,3,5,5,7,7"]%string = Err InvalidDie /\
  DiceConfiguration ["1,,2,3,4,5"; "1,1,6,6,8,8"; "3,3,5,5,7,7"]%string
  = Ok [[NFin 1 0; NFin 0 0; NFin 2 0; NFin 3 0; NFin 4 0; NFin 5 0];
        [NFin 1 0; NFin 1 0; NFin 6 0; NFin 6 0; NFin 8 0; NFin 8 0];
        [NFin 3 0; NFin 3 0; NFin 5 0; NFin 5 0; NFin 7 0; NFin 7 0]].
Proof. repeat split; vm_compute; reflexivity. Qed.


(* ================================================================= *)
(** * Further properties of the code *)
(* ================================================================= *)

Module ExtraFacts.

Local Open Scope Z_scope.







Lemma uint_chars u :
  Forall (fun c => is_digit_char c = true) (list_ascii_of_string (NilEmpty.string_of_uint u)).
Proof. induction u; cbn; constructor; auto. Qed.

Lemma take_digits_uint u :
  take_digits 10 (list_ascii_of_string (NilEmpty.string_of_uint u)) = (udigits u, []).
Proof. induction u; simpl; try rewrite IHu; reflexivity. Qed.

Lemma udigits_acc u acc :
  fold_left (fun a d => a * 10 + d) (udigits u) (Zpos acc) = Zpos (Pos.of_uint_acc u acc).
Proof.
  revert acc; induction u; intros acc; cbn [udigits fold_left Pos.of_uint_acc];
    try reflexivity; rewrite <- IHu; f_equal;
    rewrite ?Pos2Z.inj_add, ?Pos2Z.inj_mul; lia.
Qed.

Lemma udigits_value u : digits_value 10 (udigits u) = Z.of_uint u.
Proof.
  unfold digits_value, Z.of_uint. induction u; simpl; try exact IHu; try reflexivity;
  rewrite <- udigits_acc; reflexivity.
Qed.

Lemma digit_char_facts c :
  is_digit_char c = true ->
  is_ws c = false /\ Ascii.eqb c "-" = false /\ Ascii.eqb c "+" = false /\
  Ascii.eqb c "x" = false /\ Ascii.eqb c "X" = false /\ lower_char c = c.
Proof.
  unfold is_digit_char. intros Hd. apply andb_true_iff in Hd as [H1 H2].
  apply Z.leb_le in H1. apply Z.leb_le in H2.
  assert (Hne : forall d, (code d < 48 \/ 57 < code d) -> Ascii.eqb c d = false).
  { intros d Hd. destruct (Ascii.eqb_spec c d); [subst; lia|reflexivity]. }
  repeat split.
  - unfold is_ws. rewrite (proj2 (Z.leb_gt (code c) 13)) by lia.
    rewrite (proj2 (Z.eqb_neq (code c) 32)) by lia. rewrite andb_false_r. reflexivity.
  - apply Hne. left. reflexivity.
  - apply Hne. left. reflexivity.
  - apply Hne. right. reflexivity.
  - apply Hne. right. reflexivity.
  - unfold lower_char. fold (code c).
    rewrite (proj2 (Z.leb_gt 65 (code c))) by lia. reflexivity.
Qed.

Ltac finish_digits T V :=
  rewrite T; cbn [fst];
  match goal with
  | |- context [match udigits ?u with _ => _ end] =>
      let Eu := fresh in
      destruct (udigits u) eqn:Eu; [contradiction|]; rewrite V;
      destruct (Z.of_uint u); reflexivity
  end.

Lemma parseInt_uint u R :
  u <> Decimal.Nil -> (R = 10 \/ R = 0) ->
  parseInt (NilEmpty.string_of_uint u) R = JInt (Z.of_uint u) /\
  parseInt (String "-" (NilEmpty.string_of_uint u)) R = JInt (- Z.of_uint u).
Proof.
  intros Hu HR.
  pose proof (uint_chars u) as D. pose proof (take_digits_uint u) as T.
  pose proof (udigits_value u) as V.
  assert (Hne : udigits u <> []) by (destruct u; try contradiction; discriminate).
  unfold parseInt. cbn [list_ascii_of_string].
  revert D T. generalize (list_ascii_of_string (NilEmpty.string_of_uint u)) as l.
  intros l D T. destruct l as [|c rest].
  { cbn in T. injection T as T. symmetry in T. contradiction. }
  inversion D as [|? ? Hc Hrest]; subst.
  destruct (digit_char_facts c Hc) as (W & M & P & X & XX & _).
  assert (Hx : match rest with
               | x :: _ => (Ascii.eqb x "x" || Ascii.eqb x "X")%bool = false
               | [] => True end).
  { destruct rest as [|x r]; [exact I|]. inversion Hrest as [|? ? Hx' _]; subst.
    destruct (digit_char_facts x Hx') as (_ & _ & _ & -> & -> & _). reflexivity. }
  split.
  - cbn [drop_ws]. rewrite W. unfold sign. rewrite M, P. cbv iota beta.
    destruct HR as [-> | ->]; cbn -[take_digits udigits digits_value Z.of_uint].
    + finish_digits T V.
    + destruct rest as [|x r]; [finish_digits T V|].
      rewrite Hx, andb_false_r. finish_digits T V.
  - cbn [drop_ws]. change (is_ws "-"%char) with false. cbv iota.
    unfold sign. rewrite Ascii.eqb_refl. cbv iota beta.
    destruct HR as [-> | ->]; cbn -[take_digits udigits digits_value Z.of_uint].
    + finish_digits T V.
    + destruct rest as [|x r]; [finish_digits T V|].
      rewrite Hx, andb_false_r. finish_digits T V.
Qed.

Lemma nilzero_string u :
  u <> Decimal.Nil -> NilZero.string_of_uint u = NilEmpty.string_of_uint u.
Proof. destruct u; [contradiction|reflexivity..]. Qed.

Lemma parseInt_toString z R :
  (R = 10 \/ R = 0) -> parseInt (toString (JInt z)) R = JInt z.
Proof.
  intros HR. destruct z as [|p|p]; [destruct HR as [-> | ->]; reflexivity| |];
    unfold toString; cbn [Z.to_int NilZero.string_of_int];
    pose proof (DecimalPos.Unsigned.to_uint_nonnil p) as Hu;
    rewrite (nilzero_string _ Hu);
    destruct (parseInt_uint (Pos.to_uint p) R Hu HR) as [E1 E2];
    unfold Z.of_uint in E1, E2; rewrite DecimalPos.Unsigned.of_to in E1, E2.
  - exact E1.
  - exact E2.
Qed.

Lemma toString_chars z :
  Forall (fun c => numeral_char c = true) (list_ascii_of_string (toString (JInt z))).
Proof.
  assert (U : forall u, Forall (fun c => numeral_char c = true)
                          (list_ascii_of_string (NilZero.string_of_uint u))).
  { intros u. destruct u; [repeat constructor|..];
      apply (Forall_impl _ (fun c H => proj2 (orb_true_iff _ _) (or_introl H)));
      apply (uint_chars (_ _)). }
  destruct z; unfold toString; cbn [Z.to_int NilZero.string_of_int]; [apply U|apply U|].
  cbn [list_ascii_of_string]. constructor; [reflexivity|apply U].
Qed.

Lemma numeral_char_facts c :
  numeral_char c = true -> is_ws c = false /\ lower_char c = c.
Proof.
  unfold numeral_char. intros H. apply orb_true_iff in H as [H | H].
  - destruct (digit_char_facts c H) as (W & _ & _ & _ & _ & L). auto.
  - apply Ascii.eqb_eq in H. subst. split; reflexivity.
Qed.

Lemma trim_toString z : trim (toString (JInt z)) = toString (JInt z).
Proof.
  pose proof (toString_chars z) as F. unfold trim, trim_list.
  assert (D : forall l, Forall (fun c => numeral_char c = true) l -> drop_ws l = l).
  { intros [|c l] Hl; [reflexivity|]. inversion Hl; subst. cbn.
    rewrite (proj1 (numeral_char_facts c ltac:(assumption))). reflexivity. }
  rewrite (D _ F), (D _ (Forall_rev F)), rev_involutive.
  apply string_of_list_ascii_of_string.
Qed.

Lemma lower_toString z : toLowerCase (toString (JInt z)) = toString (JInt z).
Proof.
  pose proof (toString_chars z) as F. unfold toLowerCase.
  rewrite (map_ext_in _ (fun c => c)), map_id; [apply string_of_list_ascii_of_string|].
  intros c Hc. apply (proj2 (numeral_char_facts c (proj1 (Forall_forall _ _) F c Hc))).
Qed.

Lemma toString_not_command z :
  toString (JInt z) <> "x"%string /\ toString (JInt z) <> "?"%string.
Proof.
  pose proof (toString_chars z) as F.
  split; intros E; rewrite E in F; inversion F; discriminate.
Qed.

Lemma input_loop_numeral valid v ins s rest :
  In v valid -> ins = toString (JInt v) :: rest ->
  input_loop valid ins s
  = Ret v (add_event (EInput (toString (JInt v))) (set_inputs rest s)).
Proof.
  intros Hv ->. cbn [input_loop]. rewrite trim_toString, lower_toString.
  destruct (toString_not_command v) as [Nx Nq].
  destruct (string_dec _ "x"); [contradiction|].
  destruct (string_dec _ "?"); [contradiction|].
  rewrite (parseInt_toString v 10 (or_introl eq_refl)).
  replace (existsb (Z.eqb v) valid) with true; [reflexivity|].
  symmetry. apply existsb_exists. exists v. split; [exact Hv|apply Z.eqb_refl].
Qed.

Lemma input_loop_sound valid p s' : forall ins s,
  input_loop valid ins s = Ret p s' ->
  In p valid /\
  (exists pre line, ins = pre ++ line :: inputs s' /\ parseInt (trim line) 10 = JInt p) /\
  dice s' = dice s /\ userDice s' = userDice s /\ computerDice s' = computerDice s /\
  entropy s' = entropy s /\ nsess s' = nsess s.
Proof.
  induction ins as [|line rest IH]; intros s Hrun; [discriminate|].
  cbn [input_loop] in Hrun.
  destruct (string_dec _ "x"); [discriminate|].
  destruct (string_dec _ "?").
  { destruct (IH _ Hrun) as (Hp & (pre & l & E & Hl) & F).
    split; [exact Hp|]. split; [exists (line :: pre), l; rewrite E; split; [reflexivity|exact Hl]|].
    exact F. }
  destruct (parseInt (trim line) 10) as [parsed|] eqn:P.
  - destruct (existsb (Z.eqb parsed) valid) eqn:Ex.
    + injection Hrun as <- <-. apply existsb_exists in Ex as (x & Hx & Ex).
      apply Z.eqb_eq in Ex. subst x. split; [exact Hx|].
      split; [exists [], line; split; [reflexivity|exact P]|]. repeat split.
    + destruct (IH _ Hrun) as (Hp & (pre & l & E & Hl) & F).
      split; [exact Hp|]. split; [exists (line :: pre), l; rewrite E; split; [reflexivity|exact Hl]|].
      exact F.
  - destruct (IH _ Hrun) as (Hp & (pre & l & E & Hl) & F).
    split; [exact Hp|]. split; [exists (line :: pre), l; rewrite E; split; [reflexivity|exact Hl]|].
    exact F.
Qed.

Lemma splice1_spec {A} (i : nat) (l : list A) :
  splice1 i l = (nth_error l i, firstn i l ++ skipn (S i) l).
Proof.
  revert i; induction l as [|x r IH]; intros [|i]; cbn; try reflexivity.
  rewrite IH. reflexivity.
Qed.

Lemma splice1_perm {A} (i : nat) (l : list A) x :
  nth_error l i = Some x -> Permutation l (x :: firstn i l ++ skipn (S i) l).
Proof.
  intros H. rewrite <- (firstn_skipn i l) at 1.
  assert (E : skipn i l = x :: skipn (S i) l).
  { revert i H; induction l as [|y r IH]; intros [|i] H; cbn in *; try discriminate.
    - injection H as ->. reflexivity.
    - apply IH. exact H. }
  rewrite E. apply Permutation_sym, Permutation_middle.
Qed.

Lemma randomInt_loop_range range lim : forall n es x rest,
  (List.length es <= n)%nat -> 0 < range ->
  randomInt_loop range lim es = Some (x, rest) -> 0 <= x < range.
Proof.
  induction n as [|n IH]; intros es x rest Hl Hr Hrun;
    destruct es as [|b0 [|b1 [|b2 [|b3 [|b4 [|b5 es]]]]]]; cbn in Hrun; try discriminate;
    cbn in Hl; try lia.
  destruct (_ <? lim).
  - injection Hrun as <- _. apply Z.mod_pos_bound. exact Hr.
  - exact (IH es x rest ltac:(lia) Hr Hrun).
Qed.

Lemma randomInt_spec max s x s' :
  randomInt max s = Ret x s' ->
  0 <= x < max /\ dice s' = dice s /\ userDice s' = userDice s /\
  computerDice s' = computerDice s /\ trace s' = trace s /\ inputs s' = inputs s.
Proof.
  unfold randomInt. intros Hrun.
  destruct ((max <=? 0) || (RAND_MAX <? max)) eqn:B; [discriminate|].
  apply orb_false_iff in B as [B _]. apply Z.leb_gt in B.
  destruct (randomInt_loop _ _ _) as [[y rest]|] eqn:L; [|discriminate].
  injection Hrun as <- <-.
  split; [exact (randomInt_loop_range _ _ _ _ y rest (le_n _) B L)|]. repeat split.
Qed.

Lemma userSelectDice_spec s s' :
  userSelectDice s = Ret tt s' ->
  exists d, userDice s' = Some d /\ Permutation (dice s) (d :: dice s') /\
            computerDice s' = computerDice s.
Proof.
  unfold userSelectDice, bind, get. intros Hrun.
  destruct (getUserInput _ s) as [sel s1|s1] eqn:G; [|discriminate].
  destruct (input_loop_sound _ _ _ _ _ G) as (Hin & _ & Fd & Fu & Fc & _).
  apply in_range in Hin.
  rewrite splice1_spec in Hrun. injection Hrun as <-. cbn.
  rewrite Fd.
  destruct (nth_error (dice s) (Z.to_nat sel)) as [d|] eqn:N.
  - exists d. split; [reflexivity|]. split; [apply splice1_perm; exact N|exact Fc].
  - apply nth_error_None in N. lia.
Qed.

Lemma computerSelectDice_spec s s' :
  computerSelectDice s = Ret tt s' ->
  exists d, computerDice s' = Some d /\ Permutation (dice s) (d :: dice s') /\
            userDice s' = userDice s /\ trace s' = trace s ++ [EComputerDice d] /\
            inputs s' = inputs s.
Proof.
  unfold computerSelectDice, bind, get. intros Hrun.
  destruct (randomInt _ s) as [idx s1|s1] eqn:G; [|discriminate].
  destruct (randomInt_spec _ _ _ _ G) as (Hin & Fd & Fu & Fc & Ft & Fi).
  rewrite splice1_spec in Hrun.
  destruct (nth_error (dice s1) (Z.to_nat idx)) as [d|] eqn:N.
  - cbn in Hrun. injection Hrun as <-. exists d. cbn. rewrite <- Fd, Fu, Ft, Fi.
    repeat split; [apply splice1_perm; exact N].
  - apply nth_error_None in N. rewrite Fd in N. lia.
Qed.
Lemma computerSelectDice_empty s : dice s = [] -> exists s', computerSelectDice s = Halt s'.
Proof.
  intros E. unfold computerSelectDice, bind, get, randomInt. rewrite E. cbn.
  eexists. reflexivity.
Qed.

Lemma userSelectDice_numeral s i rest :
  (i < List.length (dice s))%nat ->
  inputs s = toString (JInt (Z.of_nat i)) :: rest ->
  userSelectDice s
  = Ret tt (mkst rest (entropy s) (firstn i (dice s) ++ skipn (S i) (dice s))
                 (nth_error (dice s) i) (computerDice s) (nsess s)
                 (trace s ++ [EInput (toString (JInt (Z.of_nat i)))])).
Proof.
  intros Hi Hs. unfold userSelectDice, bind, get, getUserInput.
  rewrite (input_loop_numeral (range (List.length (dice s))) (Z.of_nat i) _ s rest).
  - cbn. rewrite Nat2Z.id, splice1_spec. reflexivity.
  - unfold range. apply in_map. apply in_seq. lia.
  - exact Hs.
Qed.



Lemma dframe_bind {A B} (m : M A) (k : A -> M B) :
  dframe m -> (forall a, dframe (k a)) -> dframe (bind m k).
Proof.
  intros Hm Hk s b s' E. unfold bind in E.
  destruct (m s) as [a s1|s1] eqn:E1; [|discriminate].
  destruct (Hm _ _ _ E1) as (? & ? & ?). destruct (Hk a _ _ _ E) as (? & ? & ?).
  repeat split; congruence.
Qed.

Lemma dframe_ret {A} (a : A) : dframe (ret a).
Proof. intros s b s' E. injection E as _ <-. cbn; auto. Qed.
Lemma dframe_get : dframe get.
Proof. intros s b s' E. injection E as _ <-. cbn; auto. Qed.
Lemma dframe_halt {A} : dframe (@halt A).
Proof. intros s b s' E. discriminate. Qed.
Lemma dframe_log e : dframe (log e).
Proof. intros s b s' E. injection E as _ <-. cbn; auto. Qed.
Lemma dframe_randomBytes n : dframe (randomBytes n).
Proof. intros s b s' E. unfold randomBytes in E. destruct (_ <=? _)%nat; [|discriminate].
  injection E as _ <-. cbn; auto. Qed.
Lemma dframe_sample n : dframe (sample n).
Proof. intros s b s' E. unfold sample in E. destruct (generateUniformRandom _ _) as [[]|]; [|discriminate].
  injection E as _ <-. cbn; auto. Qed.
Lemma dframe_fresh_sid : dframe fresh_sid.
Proof. intros s b s' E. injection E as _ <-. cbn; auto. Qed.
Lemma dframe_getUserInput valid : dframe (getUserInput valid).
Proof. intros s b s' E. destruct (input_loop_sound _ _ _ _ _ E) as (_ & _ & ? & ? & ? & _). auto. Qed.

Create HintDb dframe.
#[local] Hint Resolve dframe_bind dframe_ret dframe_get dframe_halt dframe_log dframe_randomBytes
  dframe_sample dframe_fresh_sid dframe_getUserInput : dframe.

Lemma dframe_new_FairRandom H n : dframe (new_FairRandom H n).
Proof. unfold new_FairRandom. eauto 10 with dframe. Qed.
#[local] Hint Resolve dframe_new_FairRandom : dframe.

Lemma dframe_throw_body H values : dframe (throw_body H values).
Proof. unfold throw_body. eauto 20 with dframe. Qed.

Lemma dframe_userThrow H : dframe (userThrow H).
Proof.
  intros s a s' E. destruct (userDice s) as [values|] eqn:D.
  - rewrite (userThrow_body H s values D) in E. rewrite <- D. exact (dframe_throw_body H values _ _ _ E).
  - unfold userThrow, bind, get in E. rewrite D in E. discriminate.
Qed.

Lemma dframe_computerThrow H : dframe (computerThrow H).
Proof.
  intros s a s' E. destruct (computerDice s) as [values|] eqn:D.
  - rewrite (computerThrow_body H s values D) in E. rewrite <- D. exact (dframe_throw_body H values _ _ _ E).
  - unfold computerThrow, bind, get in E. rewrite D in E. discriminate.
Qed.

Lemma dframe_turn_order H : dframe (turn_order H).
Proof. unfold turn_order. eauto 20 with dframe. Qed.



Lemma bind_inv {A B} (m : M A) (k : A -> M B) s b s' :
  bind m k s = Ret b s' -> exists a s1, m s = Ret a s1 /\ k a s1 = Ret b s'.
Proof.
  unfold bind. destruct (m s) as [a s1|s1]; [|discriminate]. intros E. eauto.
Qed.

Lemma throw_body_nonempty H values s face s' :
  throw_body H values s = Ret face s' -> (0 < List.length values)%nat.
Proof.
  unfold throw_body. intros E.
  apply bind_inv in E as (fr & s1 & _ & E).
  apply bind_inv in E as (u_ & s2 & _ & E).
  apply bind_inv in E as (u & s3 & E & _).
  destruct (input_loop_sound _ _ _ _ _ E) as (Hin & _).
  apply in_range in Hin. lia.
Qed.

Lemma throw_face H values s face s' :
  throw_body H values s = Ret face s' -> exists x, face = Some x /\ In x values.
Proof.
  intros E. pose proof (throw_body_nonempty _ _ _ _ _ E) as Hl.
  destruct (throw_body_spec H values s face s' Hl E) as (u & v & t & _ & _ & _ & _ & Hf & Hn).
  destruct face as [x|]; [|congruence]. exists x. split; [reflexivity|].
  symmetry in Hf. exact (nth_error_In _ _ Hf).
Qed.

Lemma select_both s s2 :
  (log (EFirstMove User) ;; userSelectDice ;; computerSelectDice) s = Ret tt s2 \/
  (log (EFirstMove Computer) ;; computerSelectDice ;; userSelectDice) s = Ret tt s2 ->
  exists ud cd, userDice s2 = Some ud /\ computerDice s2 = Some cd /\
    Permutation (dice s) (ud :: cd :: dice s2).
Proof.
  intros [E|E]; apply bind_inv in E as (u0 & s0 & E0 & E); injection E0 as _ <-;
    apply bind_inv in E as (u1 & s1 & E1 & E); destruct u1, u0.
  - destruct (userSelectDice_spec _ _ E1) as (ud & Hu & Hp1 & _).
    destruct (computerSelectDice_spec _ _ E) as (cd & Hc & Hp2 & Hu' & _).
    exists ud, cd. rewrite Hu'. repeat split; [exact Hu|exact Hc|].
    eapply perm_trans; [exact Hp1|]. apply perm_skip. exact Hp2.
  - destruct (computerSelectDice_spec _ _ E1) as (cd & Hc & Hp1 & _).
    destruct (userSelectDice_spec _ _ E) as (ud & Hu & Hp2 & Hc').
    exists ud, cd. rewrite Hc'. repeat split; [exact Hu|exact Hc|].
    eapply perm_trans; [exact Hp1|]. cbn in Hp2.
    eapply perm_trans; [apply perm_skip; exact Hp2|]. apply perm_swap.
Qed.

Lemma start_complete H s s' :
  start H s = Ret tt s' ->
  exists ud cd a b pre,
    userDice s' = Some ud /\ computerDice s' = Some cd /\
    Permutation (dice s) (ud :: cd :: dice s') /\ In a ud /\ In b cd /\
    trace s' = pre ++ [EThrows (Some a) (Some b);
                       EWinner (if b <? a then Some User
                                else if a <? b then Some Computer else None)].
Proof.
  unfold start. intros E.
  apply bind_inv in E as (uf & s1 & E1 & E).
  apply bind_inv in E as (u_ & s2 & E2 & E).
  apply bind_inv in E as (cr & s3 & E3 & E).
  apply bind_inv in E as (ur & s4 & E4 & E).
  destruct (dframe_turn_order H _ _ _ E1) as (D1 & _ & _).
  destruct u_.
  destruct (select_both s1 s2) as (ud & cd & Hu & Hc & Hp);
    [destruct uf; [left|right]; exact E2|].
  rewrite (computerThrow_body H s2 cd Hc) in E3.
  destruct (throw_face _ _ _ _ _ E3) as (b & -> & Hb).
  destruct (dframe_throw_body _ _ _ _ _ E3) as (D3 & U3 & C3).
  rewrite (userThrow_body H s3 ud ltac:(congruence)) in E4.
  destruct (throw_face _ _ _ _ _ E4) as (a & -> & Ha).
  destruct (dframe_throw_body _ _ _ _ _ E4) as (D4 & U4 & C4).
  unfold declareWinner, bind, log in E. injection E as <-. cbn.
  exists ud, cd, a, b, (trace s4). rewrite D4, D3, U4, U3, C4, C3, <- D1, <- app_assoc.
  repeat split; auto.
Qed.

Lemma generateUniformRandom_divisor N b0 b1 b2 b3 rest :
  1 <= N -> 2 ^ 32 mod N = 0 ->
  generateUniformRandom N (b0 :: b1 :: b2 :: b3 :: rest)
  = Some (JInt (be32 b0 b1 b2 b3 mod N), rest).
Proof.
  intros HN Hd. unfold generateUniformRandom. rewrite limit_pos by exact HN.
  cbn [gen_loop]. rewrite Hd, Z.sub_0_r. unfold js_ge.
  pose proof (be32_range b0 b1 b2 b3).
  rewrite (proj2 (Z.leb_gt _ _)) by lia. unfold js_rem.
  rewrite (proj2 (Z.eqb_neq N 0)) by lia. rewrite Z.rem_mod_nonneg by lia. reflexivity.
Qed.





Lemma length_filter_app {A} (f : A -> bool) l1 l2 :
  List.length (filter f (l1 ++ l2)) = (List.length (filter f l1) + List.length (filter f l2))%nat.
Proof. rewrite filter_app, length_app. reflexivity. Qed.

Lemma length_filter_ext {A} (f g : A -> bool) l :
  (forall x, In x l -> f x = g x) -> List.length (filter f l) = List.length (filter g l).
Proof. intros E. rewrite (filter_ext_in f g l E). reflexivity. Qed.

Lemma length_filter_map {A B} (f : B -> bool) (g : A -> B) l :
  List.length (filter f (map g l)) = List.length (filter (fun x => f (g x)) l).
Proof. induction l as [|a l IH]; cbn; [reflexivity|]. destruct (f (g a)); cbn; auto. Qed.

Lemma length_filter_none {A} (f : A -> bool) l :
  (forall x, In x l -> f x = false) -> List.length (filter f l) = 0%nat.
Proof.
  intros E. induction l as [|a l IH]; cbn; [reflexivity|].
  rewrite (E a (or_introl eq_refl)). apply IH. intros x Hx. apply E. right. exact Hx.
Qed.

Lemma seq_shift_add a b n : seq (a + b) n = map (Nat.add a) (seq b n).
Proof.
  revert b. induction n as [|n IH]; intros b; cbn; [reflexivity|].
  f_equal. rewrite <- IH. f_equal. lia.
Qed.

Lemma count_index (n r : nat) :
  List.length (filter (fun k => Nat.eqb k r) (seq 0 n)) = (if (r <? n)%nat then 1 else 0)%nat.
Proof.
  induction n as [|n IH]; [reflexivity|].
  rewrite seq_S, length_filter_app, IH. cbn [filter].
  destruct (Nat.eqb_spec (0 + n) r) as [E|E]; cbn [List.length].
  - destruct (Nat.ltb_spec r n); destruct (Nat.ltb_spec r (S n)); lia.
  - destruct (Nat.ltb_spec r n); destruct (Nat.ltb_spec r (S n)); lia.
Qed.

Lemma count_residue_blocks (N r : Z) (q : nat) :
  1 <= N -> 0 <= r < N ->
  List.length (filter (fun x => Z.of_nat x mod N =? r) (seq 0 (q * Z.to_nat N)))
  = q.
Proof.
  intros HN Hr. induction q as [|q IH]; [reflexivity|].
  replace (S q * Z.to_nat N)%nat with (q * Z.to_nat N + Z.to_nat N)%nat by lia.
  rewrite seq_app, length_filter_app, IH.
  replace (0 + q * Z.to_nat N)%nat with (q * Z.to_nat N + 0)%nat by lia.
  rewrite seq_shift_add, length_filter_map.
  rewrite (length_filter_ext _ (fun k => Nat.eqb k (Z.to_nat r))).
  - rewrite count_index. rewrite (proj2 (Nat.ltb_lt _ _)) by lia. lia.
  - intros k Hk. apply in_seq in Hk.
    rewrite Nat2Z.inj_add, Nat2Z.inj_mul, Z2Nat.id by lia.
    rewrite Z.add_comm, Z.mod_add by lia. rewrite Z.mod_small by lia.
    destruct (Z.eqb_spec (Z.of_nat k) r); destruct (Nat.eqb_spec k (Z.to_nat r)); lia.
Qed.

Lemma count_accepted_gen (W N r : Z) :
  0 <= W -> 1 <= N -> 0 <= r < N ->
  List.length (filter (fun x => negb (W - W mod N <=? Z.of_nat x) && (Z.of_nat x mod N =? r))
                      (seq 0 (Z.to_nat W)))
  = Z.to_nat (W / N).
Proof.
  intros HW HN Hr.
  pose proof (Z.div_mod W N ltac:(lia)) as Ediv. pose proof (Z.mod_pos_bound W N ltac:(lia)).
  assert (Hq : 0 <= W / N) by (apply Z.div_pos; lia).
  replace (Z.to_nat W) with (Z.to_nat (W / N) * Z.to_nat N + Z.to_nat (W mod N))%nat by lia.
  rewrite seq_app, length_filter_app.
  rewrite (length_filter_none _ (seq (0 + _) _)).
  - rewrite Nat.add_0_r, (length_filter_ext _ (fun x => Z.of_nat x mod N =? r)).
    + apply count_residue_blocks; assumption.
    + intros x Hx. apply in_seq in Hx.
      rewrite (proj2 (Z.leb_gt _ _)) by lia. reflexivity.
  - intros x Hx. apply in_seq in Hx. rewrite (proj2 (Z.leb_le _ _)) by lia. reflexivity.
Qed.

Lemma accepted_count N r :
  1 <= N -> 0 <= r < N ->
  Z.of_nat (count (accepted_as N r) draws32) = 2 ^ 32 / N.
Proof.
  intros HN Hr. unfold count, draws32. rewrite length_filter_map.
  rewrite (length_filter_ext _ (fun x => negb (2 ^ 32 - 2 ^ 32 mod N <=? Z.of_nat x)
                                         && (Z.of_nat x mod N =? r))).
  - rewrite count_accepted_gen by lia. rewrite Z2Nat.id; [reflexivity|].
    apply Z.div_pos; lia.
  - intros x _. unfold accepted_as. rewrite limit_pos by exact HN. unfold js_ge, js_rem.
    rewrite (proj2 (Z.eqb_neq N 0)) by lia. rewrite Z.rem_mod_nonneg by lia. reflexivity.
Qed.


Lemma toString_inj v w : toString v = toString w -> v = w.
Proof.
  intros E.
  assert (R : forall x, parseInt (toString x) 10 = x).
  { intros [z|]; [apply parseInt_toString; left; reflexivity|reflexivity]. }
  rewrite <- (R v), <- (R w), E. reflexivity.
Qed.

Lemma hmac_message_inj v w :
  list_byte_of_string (toString v) = list_byte_of_string (toString w) -> v = w.
Proof.
  intros E. apply toString_inj.
  rewrite <- (string_of_list_byte_of_string (toString v)), E.
  apply string_of_list_byte_of_string.
Qed.

Lemma generateHMAC_mod256 H key v k :
  generateHMAC H key (v + 256 * k) = generateHMAC H key v.
Proof.
  unfold generateHMAC, byte_of. change 255 with (Z.ones 8).
  rewrite !Z.land_ones by lia.
  replace ((v + 256 * k) mod 2 ^ 8) with (v mod 2 ^ 8); [reflexivity|].
  rewrite (Z.mul_comm 256 k). change 256 with (2 ^ 8). rewrite Z.mod_add by lia. reflexivity.
Qed.

Lemma hex_digit_code n : (n < 16)%N ->
  N_of_ascii (hex_digit n) = if (n <? 10)%N then (48 + n)%N else (87 + n)%N.
Proof.
  intros Hn. unfold hex_digit. destruct (N.ltb_spec n 10);
  apply N_ascii_embedding; lia.
Qed.

Lemma hex_digit_inj n m : (n < 16)%N -> (m < 16)%N -> hex_digit n = hex_digit m -> n = m.
Proof.
  intros Hn Hm E. apply (f_equal N_of_ascii) in E.
  rewrite (hex_digit_code n Hn), (hex_digit_code m Hm) in E.
  destruct (N.ltb_spec n 10), (N.ltb_spec m 10); lia.
Qed.

Lemma byte_N_lt b : (Byte.to_N b < 256)%N.
Proof. destruct b; vm_compute; reflexivity. Qed.



Lemma hex_inj bs1 bs2 : hex bs1 = hex bs2 -> bs1 = bs2.
Proof.
  unfold hex. intros E. apply (f_equal list_ascii_of_string) in E.
  rewrite !list_ascii_of_string_of_list_ascii in E. fold (hex_chars bs1) (hex_chars bs2) in E.
  revert bs2 E. induction bs1 as [|b1 bs1 IH]; intros [|b2 bs2] E; cbn in E;
    try discriminate; [reflexivity|].
  injection E as E1 E2 E. f_equal; [|exact (IH _ E)].
  pose proof (byte_N_lt b1). pose proof (byte_N_lt b2).
  apply hex_digit_inj in E1; [|apply N.Div0.div_lt_upper_bound; lia..].
  apply hex_digit_inj in E2; [|apply N.mod_lt; lia..].
  assert (EN : Byte.to_N b1 = Byte.to_N b2).
  { rewrite (N.div_mod (Byte.to_N b1) 16), (N.div_mod (Byte.to_N b2) 16) by lia. lia. }
  apply (f_equal Byte.of_N) in EN. rewrite !Byte.of_to_N in EN. injection EN as EN. exact EN.
Qed.

Lemma hex_length bs : String.length (hex bs) = (2 * List.length bs)%nat.
Proof.
  unfold hex. fold (hex_chars bs).
  assert (L : forall l, String.length (string_of_list_ascii l) = List.length l).
  { induction l as [|a l IH]; cbn; congruence. }
  rewrite L. induction bs as [|b bs IH]; [reflexivity|]. unfold hex_chars in *. cbn [flat_map]. rewrite length_app, IH. cbn. lia.
Qed.

Lemma combine_bijective u F :
  1 <= F -> 0 <= u < F ->
  (forall r, 0 <= r < F -> exists v, 0 <= v < F /\ combine u (JInt v) F = JInt r) /\
  (forall v1 v2, 0 <= v1 < F -> 0 <= v2 < F ->
     combine u (JInt v1) F = combine u (JInt v2) F -> v1 = v2).
Proof.
  intros HF Hu.
  assert (C : forall v, 0 <= v < F -> combine u (JInt v) F = JInt ((u + v) mod F)).
  { intros v Hv. unfold combine, js_rem. rewrite (proj2 (Z.eqb_neq F 0)) by lia.
    rewrite Z.rem_mod_nonneg by lia. reflexivity. }
  assert (M : forall v, 0 <= v < F -> (u + v) mod F = u + v - F * ((u + v) / F) /\
                                       ((u + v) / F = 0 \/ (u + v) / F = 1)).
  { intros v Hv. pose proof (Z.div_mod (u + v) F ltac:(lia)).
    pose proof (Z.mod_pos_bound (u + v) F ltac:(lia)). split; [lia|].
    assert (0 <= (u + v) / F) by (apply Z.div_pos; lia).
    assert ((u + v) / F < 2) by (apply Z.div_lt_upper_bound; lia). lia. }
  split.
  - intros r Hr. exists ((r - u) mod F). pose proof (Z.mod_pos_bound (r - u) F ltac:(lia)).
    split; [lia|]. rewrite C by lia. f_equal.
    rewrite Z.add_mod_idemp_r by lia. replace (u + (r - u)) with r by lia.
    apply Z.mod_small. exact Hr.
  - intros v1 v2 H1 H2 E. rewrite (C v1 H1), (C v2 H2) in E. injection E as E.
    destruct (M v1 H1) as [E1 [Q1|Q1]], (M v2 H2) as [E2 [Q2|Q2]];
      rewrite Q1 in E1; rewrite Q2 in E2; lia.
Qed.

Lemma randomBytes_ok n s :
  (n <= List.length (entropy s))%nat ->
  randomBytes n s = Ret (firstn n (entropy s)) (set_entropy (skipn n (entropy s)) s).
Proof. intros Hn. unfold randomBytes. rewrite (proj2 (Nat.leb_le _ _) Hn). reflexivity. Qed.

Lemma bind_Ret_l {A B} (m : M A) (k : A -> M B) s a s1 :
  m s = Ret a s1 -> bind m k s = k a s1.
Proof. intros E. unfold bind. rewrite E. reflexivity. Qed.

Lemma bind_Halt_l {A B} (m : M A) (k : A -> M B) s s1 :
  m s = Halt s1 -> bind m k s = Halt s1.
Proof. intros E. unfold bind. rewrite E. reflexivity. Qed.

Lemma new_FairRandom_divisor H n s b0 b1 b2 b3 r :
  1 <= n -> 2 ^ 32 mod n = 0 -> (32 <= List.length (entropy s))%nat ->
  skipn 32 (entropy s) = b0 :: b1 :: b2 :: b3 :: r ->
  new_FairRandom H n s
  = Ret (mkFR n (firstn 32 (entropy s)) (JInt (be32 b0 b1 b2 b3 mod n))
              (calculateHMAC H (firstn 32 (entropy s)) (JInt (be32 b0 b1 b2 b3 mod n)))
              (nsess s))
        (mkst (inputs s) r (dice s) (userDice s) (computerDice s) (S (nsess s)) (trace s)).
Proof.
  intros Hn Hd Hl E. unfold new_FairRandom.
  rewrite (bind_Ret_l _ _ _ _ _ (randomBytes_ok 32 s Hl)).
  unfold bind at 1. unfold sample at 1. cbn [entropy set_entropy]. rewrite E.
  rewrite generateUniformRandom_divisor by assumption. reflexivity.
Qed.

Lemma input_loop_exit valid line rest s :
  toLowerCase (trim line) = "x"%string ->
  input_loop valid (line :: rest) s = Halt (add_event EExit (add_event (EInput line) (set_inputs rest s))).
Proof.
  intros Hx. cbn [input_loop]. cbv zeta. rewrite Hx.
  destruct (string_dec "x" "x"); [reflexivity|congruence].
Qed.

Lemma start_exit_first H s line rest :
  (36 <= List.length (entropy s))%nat ->
  inputs s = line :: rest ->
  toLowerCase (trim line) = "x"%string ->
  exists id h s', start H s = Halt s' /\
    trace s' = trace s ++ [EHmac id h; EInput line; EExit].
Proof.
  intros Hl Hi Hx.
  remember (skipn 32 (entropy s)) as es eqn:Ees.
  assert (Hes : (4 <= List.length es)%nat) by (subst es; rewrite length_skipn; lia).
  destruct es as [|b0 [|b1 [|b2 [|b3 r]]]]; cbn in Hes; try lia.
  symmetry in Ees.
  pose proof (new_FairRandom_divisor H 2 s b0 b1 b2 b3 r ltac:(lia) eq_refl ltac:(lia) Ees) as NF.
  set (fr := mkFR _ _ _ _ _) in NF. set (s1 := mkst _ _ _ _ _ _ _) in NF.
  set (s2 := add_event (EHmac (sid fr) (hmac fr)) s1).
  assert (G : getUserInput [0; 1] s2
              = Halt (add_event EExit (add_event (EInput line) (set_inputs rest s2)))).
  { unfold getUserInput. replace (inputs s2) with (line :: rest) by (cbn; congruence).
    apply input_loop_exit. exact Hx. }
  exists (sid fr), (hmac fr), (add_event EExit (add_event (EInput line) (set_inputs rest s2))).
  split.
  - unfold start. apply bind_Halt_l. unfold turn_order.
    rewrite (bind_Ret_l _ _ _ _ _ NF). unfold bind at 1. unfold log at 1. cbv beta iota.
    fold s2. apply bind_Halt_l. exact G.
  - cbn. rewrite <- !app_assoc. reflexivity.
Qed.

Lemma to_fixed_bounds f y B :
  0 <= B -> (0 <= y)%Q -> (y <= inject_Z B)%Q -> 0 <= to_fixed f y <= B * 10 ^ Z.of_nat f.
Proof.
  intros HB H0 H1. unfold to_fixed.
  assert (Hp : 0 < 10 ^ Z.of_nat f) by (apply Z.pow_pos_nonneg; lia).
  assert (Hpq : (0 <= inject_Z (10 ^ Z.of_nat f))%Q)
    by (change 0%Q with (inject_Z 0); rewrite <- Zle_Qle; lia).
  split.
  - change 0 with (Qfloor 0). apply Qfloor_resp_le.
    apply (Qle_trans _ (0 * inject_Z (10 ^ Z.of_nat f) + 0)); [discriminate|].
    apply Qplus_le_compat; [apply Qmult_le_compat_r; assumption|discriminate].
  - assert (U : (y * inject_Z (10 ^ Z.of_nat f) + (1 # 2)
                 < inject_Z (B * 10 ^ Z.of_nat f + 1))%Q).
    { rewrite inject_Z_plus, inject_Z_mult.
      apply (Qle_lt_trans _ (inject_Z B * inject_Z (10 ^ Z.of_nat f) + (1 # 2))).
      - apply Qplus_le_compat; [apply Qmult_le_compat_r; assumption|apply Qle_refl].
      - apply Qplus_lt_r. reflexivity. }
    pose proof (Qfloor_le (y * inject_Z (10 ^ Z.of_nat f) + (1 # 2))) as L.
    pose proof (Qle_lt_trans _ _ _ L U) as LU. rewrite <- Zlt_Qlt in LU. lia.
Qed.

Lemma ratio_bounds (w t : nat) :
  (w <= t)%nat -> (0 < t)%nat ->
  (0 <= inject_Z (Z.of_nat w) / inject_Z (Z.of_nat t))%Q /\
  (inject_Z (Z.of_nat w) / inject_Z (Z.of_nat t) <= inject_Z 1)%Q.
Proof.
  intros Hw Ht. assert (Tq : (0 < inject_Z (Z.of_nat t))%Q)
    by (change 0%Q with (inject_Z 0); rewrite <- Zlt_Qlt; lia).
  split.
  - apply Qle_shift_div_l; [exact Tq|]. rewrite Qmult_0_l.
    change 0%Q with (inject_Z 0). rewrite <- Zle_Qle. lia.
  - apply Qle_shift_div_r; [exact Tq|]. rewrite Qmult_1_l. rewrite <- Zle_Qle. lia.
Qed.

Lemma gj_cell_of_spec d1 d2 :
  (gj_cell_of d1 d2 = GNaN <-> d1 = [] \/ d2 = []) /\
  (forall k, gj_cell_of d1 d2 = GFixed k -> 0 <= k <= 10000) /\
  gj_cell_of d1 d2 <> GZero.
Proof.
  unfold gj_cell_of, gj_counts. rewrite count_wins_spec.
  pose proof (spec_wins_le d1 d2) as Hle.
  destruct (Nat.eqb_spec (List.length d1 * List.length d2) 0) as [E|E].
  - apply Nat.mul_eq_0 in E. split; [split|split]; [intros _|intros _; reflexivity|discriminate|discriminate].
    destruct E as [E|E]; [left|right]; apply length_zero_iff_nil; exact E.
  - split; [split|split]; [discriminate| |intros k Ek|discriminate].
    + intros [->| ->]; cbn in E; lia.
    + injection Ek as <-.
      destruct (ratio_bounds (spec_wins d1 d2) _ Hle ltac:(lia)) as [R0 R1].
      apply (to_fixed_bounds 4 _ 1); [lia|apply to_double_nonneg, R0|].
      apply to_double_le_int; [lia|exact R0|exact R1].
Qed.

Lemma calculateProbability_bounds d1 d2 :
  snd (fraction (calculateProbability d1 d2)) = (List.length d1 * List.length d2)%nat /\
  (fst (fraction (calculateProbability d1 d2)) <= snd (fraction (calculateProbability d1 d2)))%nat /\
  (percentage (calculateProbability d1 d2) = None <-> d1 = [] \/ d2 = []) /\
  (forall p, percentage (calculateProbability d1 d2) = Some p -> 0 <= p <= 10000).
Proof.
  rewrite calculateProbability_percentage, calculateProbability_fraction. cbn [fst snd].
  pose proof (spec_wins_le d1 d2) as Hle.
  split; [reflexivity|]. split; [exact Hle|].
  destruct (Nat.eqb_spec (List.length d1 * List.length d2) 0) as [E|E].
  - apply Nat.mul_eq_0 in E. split; [split|]; [intros _|intros _; reflexivity|discriminate].
    destruct E as [E|E]; [left|right]; apply length_zero_iff_nil; exact E.
  - split; [split|]; [discriminate| |].
    + intros [->| ->]; cbn in E; lia.
    + intros p Ep. injection Ep as <-.
      destruct (ratio_bounds (spec_wins d1 d2) _ Hle ltac:(lia)) as [R0 R1].
      pose proof (to_double_nonneg _ R0) as D0.
      pose proof (to_double_le_int _ 1 ltac:(lia) R0 R1) as D1.
      assert (A0 : (0 <= to_double (inject_Z (Z.of_nat (spec_wins d1 d2))
                      / inject_Z (Z.of_nat (List.length d1 * List.length d2))) * inject_Z 100)%Q).
      { apply (Qle_trans _ (0 * inject_Z 100)); [discriminate|].
        apply Qmult_le_compat_r; [exact D0|discriminate]. }
      assert (A1 : (to_double (inject_Z (Z.of_nat (spec_wins d1 d2))
                      / inject_Z (Z.of_nat (List.length d1 * List.length d2))) * inject_Z 100
                    <= inject_Z 100)%Q).
      { apply (Qle_trans _ (inject_Z 1 * inject_Z 100)); [|apply Qle_refl].
        apply Qmult_le_compat_r; [exact D1|discriminate]. }
      apply (to_fixed_bounds 2 _ 100); [lia|apply to_double_nonneg, A0|].
      apply to_double_le_int; [lia|exact A0|exact A1].
Qed.

Lemma imap_length {A B} (f : nat -> A -> B) (l : list A) : List.length (imap f l) = List.length l.
Proof.
  unfold imap. generalize 0%nat. induction l as [|x l IH]; intros k; cbn; [reflexivity|].
  rewrite IH. reflexivity.
Qed.


Lemma gj_table_shape ds i j :
  (i < List.length ds)%nat -> (j < List.length ds)%nat ->
  List.length (calculateProbabilities ds) = List.length ds /\
  Forall (fun row => List.length row = List.length ds) (calculateProbabilities ds) /\
  exists c, cell i j (calculateProbabilities ds) = Some c /\
    (i = j -> c = GZero) /\
    (i <> j -> c <> GZero /\ (c = GNaN <-> nth i ds [] = [] \/ nth j ds [] = []) /\
               (forall k, c = GFixed k -> 0 <= k <= 10000)).
Proof.
  intros Hi Hj. split; [apply imap_length|]. split.
  - apply Forall_forall. intros row Hr. unfold calculateProbabilities in Hr.
    apply In_nth_error in Hr as [n Hn].
    rewrite imap_nth in Hn. destruct (nth_error ds n); [|discriminate].
    injection Hn as <-. apply imap_length.
  - destruct (nth_error ds i) as [d1|] eqn:E1; [|apply nth_error_None in E1; lia].
    destruct (nth_error ds j) as [d2|] eqn:E2; [|apply nth_error_None in E2; lia].
    assert (N1 : nth i ds [] = d1) by (apply nth_error_nth; exact E1).
    assert (N2 : nth j ds [] = d2) by (apply nth_error_nth; exact E2).
    rewrite N1, N2.
    destruct (Nat.eq_dec i j) as [<-|Hij].
    + exists GZero. split; [|split; [reflexivity|intros []; reflexivity]].
      unfold cell, calculateProbabilities. rewrite imap_nth, E1. cbn [option_map].
      rewrite imap_nth, E1. cbn [option_map]. rewrite Nat.eqb_refl. reflexivity.
    + exists (gj_cell_of d1 d2). split; [exact (cell_calculateProbabilities ds i j d1 d2 Hij E1 E2)|].
      split; [intros; contradiction|]. intros _.
      destruct (gj_cell_of_spec d1 d2) as (A & B & C). split; [exact C|]. split; [exact A|exact B].
Qed.

Lemma p0_table_shape ds i j :
  (i < List.length ds)%nat -> (j < List.length ds)%nat ->
  List.length (probability_table ds) = List.length ds /\
  Forall (fun row => List.length row = List.length ds) (probability_table ds) /\
  exists c, cell i j (probability_table ds) = Some c /\
    (i = j -> c = PDiag) /\
    (i <> j -> exists r, c = PCell r /\
       fraction r = (fst (fraction r), List.length (nth i ds []) * List.length (nth j ds []))%nat /\
       (fst (fraction r) <= snd (fraction r))%nat /\
       (percentage r = None <-> nth i ds [] = [] \/ nth j ds [] = []) /\
       (forall p, percentage r = Some p -> 0 <= p <= 10000)).
Proof.
  intros Hi Hj. split; [apply imap_length|]. split.
  - apply Forall_forall. intros row Hr. unfold probability_table in Hr.
    apply In_nth_error in Hr as [n Hn].
    rewrite imap_nth in Hn. destruct (nth_error ds n); [|discriminate].
    injection Hn as <-. apply imap_length.
  - destruct (nth_error ds i) as [d1|] eqn:E1; [|apply nth_error_None in E1; lia].
    destruct (nth_error ds j) as [d2|] eqn:E2; [|apply nth_error_None in E2; lia].
    assert (N1 : nth i ds [] = d1) by (apply nth_error_nth; exact E1).
    assert (N2 : nth j ds [] = d2) by (apply nth_error_nth; exact E2).
    rewrite N1, N2.
    destruct (Nat.eq_dec i j) as [<-|Hij].
    + exists PDiag. split; [|split; [reflexivity|intros []; reflexivity]].
      unfold cell, probability_table. rewrite imap_nth, E1. cbn [option_map].
      rewrite imap_nth, E1. cbn [option_map]. rewrite Nat.eqb_refl. reflexivity.
    + exists (PCell (calculateProbability d1 d2)).
      split; [exact (cell_probability_table ds i j d1 d2 Hij E1 E2)|].
      split; [intros; contradiction|]. intros _. exists (calculateProbability d1 d2).
      destruct (calculateProbability_bounds d1 d2) as (T & L & A & B).
      split; [reflexivity|]. split; [|split; [exact L|split; [exact A|exact B]]].
      rewrite <- T. destruct (fraction _); reflexivity.
Qed.





Lemma parse_values_ok die toks vs :
  parse_values die toks = Ok vs <->
  forallb (fun t => negb (isNaN t)) toks = true /\ vs = map (fun t => parseInt t 10) toks.
Proof.
  revert vs. induction toks as [|t ts IH]; intros vs; cbn.
  - split; [intros E; injection E as <-; auto|intros [_ ->]; reflexivity].
  - destruct (isNaN t); cbn.
    + split; [discriminate|intros [? _]; discriminate].
    + destruct (parse_values die ts) as [ws|e] eqn:P.
      * destruct (proj1 (IH ws) eq_refl) as [IH1 IH2].
        split; [intros E; injection E as <-; subst; auto|].
        intros [F ->]. subst ws. reflexivity.
      * split; [discriminate|]. intros [F ->].
        pose proof (proj2 (IH _) (conj F eq_refl)) as C. discriminate C.
Qed.

Lemma parse_values_err die toks e :
  parse_values die toks = Err e ->
  exists pre t post, toks = pre ++ t :: post /\
    Forall (fun t => isNaN t = false) pre /\ isNaN t = true /\ e = NonIntegerValue die t.
Proof.
  induction toks as [|t ts IH]; cbn; [discriminate|].
  destruct (isNaN t) eqn:Nt.
  - intros E. injection E as <-. exists [], t, ts. auto.
  - destruct (parse_values die ts) as [ws|e']; [discriminate|]. intros E. injection E as ->.
    destruct (IH eq_refl) as (pre & u & post & -> & F & Nu & ->).
    exists (t :: pre), u, post. repeat split; auto.
Qed.

Lemma parse_args_ok index args ds :
  parse_args index args = Ok ds <->
  Forall (fun a => die_ok a = true) args /\ ds = map die_values args.
Proof.
  revert index ds. induction args as [|a args IH]; intros index ds; cbn.
  - split; [intros E; injection E as <-; auto|intros [_ ->]; reflexivity].
  - destruct (parse_values (S index) (split_comma a)) as [vs|e] eqn:P.
    + apply parse_values_ok in P as [F ->]. rewrite length_map.
      destruct (Nat.eqb_spec (List.length (split_comma a)) 6) as [L|L]; cbn [negb].
      * destruct (parse_args (S index) args) as [ws|e] eqn:Q.
        -- destruct (proj1 (IH (S index) ws) Q) as [Fa ->]. split.
           ++ intros E. injection E as <-. split; [|reflexivity]. constructor; [|exact Fa].
              unfold die_ok. rewrite F. apply Nat.eqb_eq. exact L.
           ++ intros [_ E]. rewrite E. reflexivity.
        -- split; [discriminate|]. intros [Fa E]. inversion Fa as [|? ? _ Fr]; subst.
           rewrite (proj2 (IH (S index) _) (conj Fr eq_refl)) in Q. discriminate.
      * split; [discriminate|]. intros [Fa _]. inversion Fa as [|? ? Da _]; subst.
        unfold die_ok in Da. apply andb_prop in Da as [_ Da]. apply Nat.eqb_eq in Da. contradiction.
    + split; [discriminate|]. intros [Fa _]. inversion Fa as [|? ? Da _]; subst.
      unfold die_ok in Da. apply andb_prop in Da as [Da _].
      rewrite (proj2 (parse_values_ok (S index) _ _) (conj Da eq_refl)) in P. discriminate.
Qed.

Lemma parse_args_err index args e :
  parse_args index args = Err e ->
  exists k a, nth_error args k = Some a /\ Forall (fun a => die_ok a = true) (firstn k args) /\
    ((exists pre t post, split_comma a = pre ++ t :: post /\
        Forall (fun t => isNaN t = false) pre /\ isNaN t = true /\
        e = NonIntegerValue (S (index + k)) t) \/
     (forallb (fun t => negb (isNaN t)) (split_comma a) = true /\
      List.length (split_comma a) <> 6%nat /\ e = WrongValueCount (S (index + k)))).
Proof.
  revert index. induction args as [|a args IH]; intros index; cbn; [discriminate|].
  destruct (parse_values (S index) (split_comma a)) as [vs|e'] eqn:P.
  - apply parse_values_ok in P as [F ->]. rewrite length_map.
    destruct (Nat.eqb_spec (List.length (split_comma a)) 6) as [L|L]; cbn [negb].
    + destruct (parse_args (S index) args) as [ws|e'] eqn:Q; [discriminate|].
      intros E. injection E as ->.
      destruct (IH (S index) Q) as (k & b & Hk & Fk & R).
      exists (S k), b. cbn [nth_error firstn]. split; [exact Hk|]. split.
      * constructor; [|exact Fk]. unfold die_ok. rewrite F, L. reflexivity.
      * replace (S (index + S k)) with (S (S index + k)) by lia. exact R.
    + intros E. injection E as <-. exists 0%nat, a. cbn. split; [reflexivity|].
      split; [constructor|]. right. rewrite Nat.add_0_r. auto.
  - intros E. injection E as ->. exists 0%nat, a. cbn. split; [reflexivity|].
    split; [constructor|]. left. rewrite Nat.add_0_r.
    exact (parse_values_err _ _ _ P).
Qed.

Lemma parseDice_ok args ds :
  parseDice args = Ok ds <->
  (3 <= List.length args)%nat /\ Forall (fun a => die_ok a = true) args /\ ds = map die_values args.
Proof.
  unfold parseDice. destruct (Nat.ltb_spec (List.length args) 3) as [L|L].
  - split; [discriminate|lia].
  - rewrite parse_args_ok. split; [intros [F E]; auto|intros (_ & F & E); auto].
Qed.

Lemma parseDice_err args e :
  parseDice args = Err e ->
  ((List.length args < 3)%nat /\ e = TooFewDice) \/
  ((3 <= List.length args)%nat /\
   exists k a, nth_error args k = Some a /\ Forall (fun a => die_ok a = true) (firstn k args) /\
    ((exists pre t post, split_comma a = pre ++ t :: post /\
        Forall (fun t => isNaN t = false) pre /\ isNaN t = true /\ e = NonIntegerValue (S k) t) \/
     (forallb (fun t => negb (isNaN t)) (split_comma a) = true /\
      List.length (split_comma a) <> 6%nat /\ e = WrongValueCount (S k)))).
Proof.
  unfold parseDice. destruct (Nat.ltb_spec (List.length args) 3) as [L|L].
  - intros E. injection E as <-. left. auto.
  - intros E. right. split; [exact L|]. exact (parse_args_err 0 args e E).
Qed.







End ExtraFacts.

Import ExtraFacts.

(** [getUserInput] (game.js, lines 162-180): when the next line typed is the
    decimal numeral [String(v)] of an allowed value [v], the prompt returns
    [v] at once, consuming exactly that line and echoing it. *)
Theorem getUserInput_accepts_numeral valid v s rest :
  In v valid -> inputs s = toString (JInt v) :: rest ->
  getUserInput valid s = Ret v (add_event (EInput (toString (JInt v))) (set_inputs rest s)).
Proof. intros Hv Hs. exact (input_loop_numeral valid v (inputs s) s rest Hv Hs). Qed.

Lemma getUserInput_accepts_numeral_witness :
  In 1 [0; 1] /\ inputs (demo ["1"%string]) = toString (JInt 1) :: [] /\
  getUserInput [0; 1] (demo ["1"%string])
  = Ret 1 (add_event (EInput (toString (JInt 1))) (set_inputs [] (demo ["1"%string]))).
Proof.
  split; [cbn; auto|]. split; [reflexivity|].
  apply getUserInput_accepts_numeral; [cbn; auto|reflexivity].
Defined.

(** [getUserInput]: a value it returns is one of the allowed values and is
    [parseInt] of the trimmed last line it consumed; the prompt consumes a
    prefix of the typed lines and never touches the dice or the entropy. *)
Theorem getUserInput_sound valid s p s' :
  getUserInput valid s = Ret p s' ->
  In p valid /\
  (exists pre line, inputs s = pre ++ line :: inputs s' /\ parseInt (trim line) 10 = JInt p) /\
  dice s' = dice s /\ userDice s' = userDice s /\ computerDice s' = computerDice s /\
  entropy s' = entropy s.
Proof.
  intros E. destruct (input_loop_sound valid p s' (inputs s) s E) as (A & B & C & D & F & G & _).
  exact (conj A (conj B (conj C (conj D (conj F G))))).
Qed.

Lemma getUserInput_sound_witness :
  exists p s', getUserInput [0; 1] (demo ["?"; "5"; " 1 "]%string) = Ret p s' /\
  In p [0; 1] /\
  (exists pre line, inputs (demo ["?"; "5"; " 1 "]%string) = pre ++ line :: inputs s' /\
                    parseInt (trim line) 10 = JInt p) /\
  dice s' = dice (demo ["?"; "5"; " 1 "]%string) /\
  userDice s' = userDice (demo ["?"; "5"; " 1 "]%string) /\
  computerDice s' = computerDice (demo ["?"; "5"; " 1 "]%string) /\
  entropy s' = entropy (demo ["?"; "5"; " 1 "]%string).
Proof.
  assert (E : exists p s', getUserInput [0; 1] (demo ["?"; "5"; " 1 "]%string) = Ret p s')
    by (vm_compute; do 2 eexists; reflexivity).
  destruct E as (p & s' & E). exists p, s'. split; [exact E|].
  exact (getUserInput_sound [0; 1] _ p s' E).
Defined.

(** [getUserInput]: a line that reads "x" after trimming and lower-casing
    ends the program ([process.exit]) right after that line is echoed,
    whatever the allowed values. *)
Theorem getUserInput_exit valid s line rest :
  inputs s = line :: rest -> toLowerCase (trim line) = "x"%string ->
  getUserInput valid s = Halt (add_event EExit (add_event (EInput line) (set_inputs rest s))).
Proof. intros Hs Hx. unfold getUserInput. rewrite Hs. exact (input_loop_exit valid line rest s Hx). Qed.

Lemma getUserInput_exit_witness :
  inputs (demo [" X "%string]) = [" X "%string] /\ toLowerCase (trim " X ") = "x"%string /\
  getUserInput [0; 1] (demo [" X "%string])
  = Halt (add_event EExit (add_event (EInput " X ") (set_inputs [] (demo [" X "%string])))).
Proof.
  split; [reflexivity|]. split; [reflexivity|].
  apply getUserInput_exit; reflexivity.
Defined.

(** [FairRandom.calculateHMAC] (game.js, lines 22-26): distinct values give
    distinct HMAC messages [Buffer.from(value.toString())]; [NaN] included. *)
Theorem calculateHMAC_message_injective v w :
  v <> w -> list_byte_of_string (toString v) <> list_byte_of_string (toString w).
Proof. intros Hvw E. apply Hvw. exact (hmac_message_inj v w E). Qed.

Lemma calculateHMAC_message_injective_witness :
  JInt 0 <> JNaN /\ list_byte_of_string (toString (JInt 0)) <> list_byte_of_string (toString JNaN).
Proof.
  split; [discriminate|]. apply calculateHMAC_message_injective. discriminate.
Defined.

(** [DiceGame.userSelectDice] (game.js, lines 115-122): on return the user
    holds a die taken out of the remaining dice (the old list is a
    permutation of that die followed by the new list), and the computer's
    die is untouched. *)
Theorem userSelectDice_moves_die s s' :
  userSelectDice s = Ret tt s' ->
  exists d, userDice s' = Some d /\ Permutation (dice s) (d :: dice s') /\
            computerDice s' = computerDice s.
Proof. exact (userSelectDice_spec s s'). Qed.

Lemma userSelectDice_moves_die_witness :
  exists s', userSelectDice (demo ["?"; "7"; "2"]%string) = Ret tt s' /\
  exists d, userDice s' = Some d /\ Permutation (dice (demo ["?"; "7"; "2"]%string)) (d :: dice s') /\
            computerDice s' = computerDice (demo ["?"; "7"; "2"]%string).
Proof.
  assert (E : exists s', userSelectDice (demo ["?"; "7"; "2"]%string) = Ret tt s')
    by (vm_compute; eexists; reflexivity).
  destruct E as (s' & E). exists s'. split; [exact E|].
  exact (userSelectDice_moves_die _ s' E).
Defined.

(** [DiceGame.userSelectDice]: typing the index [i] of a remaining die gives
    the user [dice[i]] and leaves the dice before and after it, in order. *)
Theorem userSelectDice_typed_index s i rest :
  (i < List.length (dice s))%nat ->
  inputs s = toString (JInt (Z.of_nat i)) :: rest ->
  userSelectDice s
  = Ret tt (mkst rest (entropy s) (firstn i (dice s) ++ skipn (S i) (dice s))
                 (nth_error (dice s) i) (computerDice s) (nsess s)
                 (trace s ++ [EInput (toString (JInt (Z.of_nat i)))])).
Proof. exact (userSelectDice_numeral s i rest). Qed.

Lemma userSelectDice_typed_index_witness :
  (1 < List.length (dice (demo ["1"%string])))%nat /\
  inputs (demo ["1"%string]) = toString (JInt (Z.of_nat 1)) :: [] /\
  userSelectDice (demo ["1"%string])
  = Ret tt (mkst [] (zeros 400) [die1; die3] (Some die2) None 0
                 [EInput (toString (JInt (Z.of_nat 1)))]).
Proof.
  split; [cbn; lia|]. split; [reflexivity|].
  exact (userSelectDice_typed_index (demo ["1"%string]) 1 [] ltac:(cbn; lia) eq_refl).
Defined.

(** [DiceGame.computerSelectDice] (game.js, lines 123-127): on return the
    computer holds a die taken out of the remaining dice, announces it,
    reads no input and leaves the user's die untouched. *)
Theorem computerSelectDice_moves_die s s' :
  computerSelectDice s = Ret tt s' ->
  exists d, computerDice s' = Some d /\ Permutation (dice s) (d :: dice s') /\
            userDice s' = userDice s /\ trace s' = trace s ++ [EComputerDice d] /\
            inputs s' = inputs s.
Proof. exact (computerSelectDice_spec s s'). Qed.

Lemma computerSelectDice_moves_die_witness :
  exists s', computerSelectDice (demo []) = Ret tt s' /\
  exists d, computerDice s' = Some d /\ Permutation (dice (demo [])) (d :: dice s') /\
            userDice s' = userDice (demo []) /\ trace s' = trace (demo []) ++ [EComputerDice d] /\
            inputs s' = inputs (demo []).
Proof.
  assert (E : exists s', computerSelectDice (demo []) = Ret tt s')
    by (vm_compute; eexists; reflexivity).
  destruct E as (s' & E). exists s'. split; [exact E|].
  exact (computerSelectDice_moves_die _ s' E).
Defined.

(** [DiceGame.computerSelectDice]: with no die left, [crypto.randomInt(0)]
    throws, so the method never returns. *)
Theorem computerSelectDice_no_dice s :
  dice s = [] -> exists s', computerSelectDice s = Halt s'.
Proof. exact (computerSelectDice_empty s). Qed.

Lemma computerSelectDice_no_dice_witness :
  dice (new_DiceGame [] [] (zeros 400)) = [] /\
  exists s', computerSelectDice (new_DiceGame [] [] (zeros 400)) = Halt s'.
Proof. split; [reflexivity|]. apply computerSelectDice_no_dice. reflexivity. Defined.

(** [DiceGame.start] (game.js, lines 93-114): a run that completes has given
    the user and the computer two different dice of the initial set, each
    throw is a face of its player's die, and the console ends with the two
    throws and the winner: the user if its throw is higher, the computer if
    lower, nobody on a tie. *)
Theorem start_full_run H s s' :
  start H s = Ret tt s' ->
  exists ud cd a b pre,
    userDice s' = Some ud /\ computerDice s' = Some cd /\
    Permutation (dice s) (ud :: cd :: dice s') /\ In a ud /\ In b cd /\
    trace s' = pre ++ [EThrows (Some a) (Some b);
                       EWinner (if b <? a then Some User
                                else if a <? b then Some Computer else None)].
Proof. exact (start_complete H s s'). Qed.

Lemma start_full_run_witness :
  exists s', start id_hmac (demo ["0"; "0"; "3"; "5"]%string) = Ret tt s' /\
  exists ud cd a b pre,
    userDice s' = Some ud /\ computerDice s' = Some cd /\
    Permutation (dice (demo ["0"; "0"; "3"; "5"]%string)) (ud :: cd :: dice s') /\
    In a ud /\ In b cd /\
    trace s' = pre ++ [EThrows (Some a) (Some b);
                       EWinner (if b <? a then Some User
                                else if a <? b then Some Computer else None)].
Proof.
  assert (E : exists s', start id_hmac (demo ["0"; "0"; "3"; "5"]%string) = Ret tt s')
    by (vm_compute; eexists; reflexivity).
  destruct E as (s' & E). exists s'. split; [exact E|].
  exact (start_full_run id_hmac _ s' E).
Defined.

(** [DiceGame.start]: given enough entropy, typing "x" at the first prompt
    ends the program after the turn-order commitment and the echoed line; no
    key or value is revealed. *)
Theorem start_exit_at_turn_prompt H s line rest :
  (36 <= List.length (entropy s))%nat ->
  inputs s = line :: rest ->
  toLowerCase (trim line) = "x"%string ->
  exists id h s', start H s = Halt s' /\
    trace s' = trace s ++ [EHmac id h; EInput line; EExit].
Proof. exact (start_exit_first H s line rest). Qed.

Lemma start_exit_at_turn_prompt_witness :
  (36 <= List.length (entropy (demo ["x"; "0"]%string)))%nat /\
  inputs (demo ["x"; "0"]%string) = "x"%string :: ["0"%string] /\
  toLowerCase (trim "x") = "x"%string /\
  exists id h s', start id_hmac (demo ["x"; "0"]%string) = Halt s' /\
    trace s' = trace (demo ["x"; "0"]%string) ++ [EHmac id h; EInput "x"; EExit].
Proof.
  split; [vm_compute; lia|]. split; [reflexivity|]. split; [reflexivity|].
  apply (start_exit_at_turn_prompt id_hmac _ "x" ["0"%string]); [vm_compute; lia|reflexivity|reflexivity].
Defined.

(** [FairRandom.generateUniformRandom] (game.js, lines 27-34): when [N]
    divides 2^32 (as for the turn order, N = 2) the limit is 2^32, so the
    first 32-bit draw is always accepted and the value is that draw mod N. *)
Theorem generateUniformRandom_no_rejection N b0 b1 b2 b3 rest :
  1 <= N -> 2 ^ 32 mod N = 0 ->
  generateUniformRandom N (b0 :: b1 :: b2 :: b3 :: rest)
  = Some (JInt (be32 b0 b1 b2 b3 mod N), rest).
Proof. exact (generateUniformRandom_divisor N b0 b1 b2 b3 rest). Qed.

Lemma generateUniformRandom_no_rejection_witness :
  1 <= 2 /\ 2 ^ 32 mod 2 = 0 /\
  generateUniformRandom 2 [xff; xff; xff; xff; x07]
  = Some (JInt (be32 xff xff xff xff mod 2), [x07]).
Proof.
  split; [lia|]. split; [reflexivity|].
  apply generateUniformRandom_no_rejection; [lia|reflexivity].
Defined.

(** [FairRandom.generateUniformRandom]: for every N >= 1 and every r in [0,
    N), exactly 2^32 / N of the 2^32 possible 32-bit draws are accepted and
    give r, so a uniform draw yields a uniform value. *)
Theorem generateUniformRandom_uniform N r :
  1 <= N -> 0 <= r < N ->
  Z.of_nat (count (accepted_as N r) draws32) = 2 ^ 32 / N.
Proof. exact (accepted_count N r). Qed.

Lemma generateUniformRandom_uniform_witness :
  1 <= 6 /\ 0 <= 5 < 6 /\ Z.of_nat (count (accepted_as 6 5) draws32) = 2 ^ 32 / 6.
Proof.
  split; [lia|]. split; [lia|]. apply generateUniformRandom_uniform; lia.
Defined.

(** The combination [(userInput + computerValue) % n] of the throws
    (game.js, lines 128-148): for a fixed user input in [0, F) it maps the
    computer's values [0, F) one-to-one onto the results [0, F), so a
    uniform secret gives a uniform result whatever the user types. *)
Theorem combine_is_bijection u F :
  1 <= F -> 0 <= u < F ->
  (forall r, 0 <= r < F -> exists v, 0 <= v < F /\ combine u (JInt v) F = JInt r) /\
  (forall v1 v2, 0 <= v1 < F -> 0 <= v2 < F ->
     combine u (JInt v1) F = combine u (JInt v2) F -> v1 = v2).
Proof. exact (combine_bijective u F). Qed.

Lemma combine_is_bijection_witness :
  1 <= 6 /\ 0 <= 4 < 6 /\
  (forall r, 0 <= r < 6 -> exists v, 0 <= v < 6 /\ combine 4 (JInt v) 6 = JInt r) /\
  (forall v1 v2, 0 <= v1 < 6 -> 0 <= v2 < 6 ->
     combine 4 (JInt v1) 6 = combine 4 (JInt v2) 6 -> v1 = v2).
Proof.
  split; [lia|]. split; [lia|]. apply combine_is_bijection; lia.
Defined.

(** [buffer.toString('hex')] as used by [revealKey] (game.js, lines 35-37):
    the hex string of n bytes has 2n characters and distinct keys give
    distinct strings. *)
Theorem hex_length_injective bs :
  String.length (hex bs) = (2 * List.length bs)%nat /\
  (forall bs', hex bs = hex bs' -> bs = bs').
Proof. split; [apply hex_length|intros bs'; apply hex_inj]. Qed.

(** part_000's [FairRandomGenerator.generateHMAC] (lines 92-96) hashes
    [Buffer.from([value])], a single byte: the commitment depends on the
    value only modulo 256. *)
Theorem generateHMAC_value_mod_256 H key v k :
  generateHMAC H key (v + 256 * k) = generateHMAC H key v.
Proof. apply generateHMAC_mod256. Qed.

(** part_000's [Game.determineTurnOrder] (lines 116-131): a guess typed as
    the decimal numeral of [g] gives the user the first move exactly when
    [g] equals the computer's value. *)
Theorem determineTurnOrder_numeral compVal g :
  determineTurnOrder compVal (toString (JInt g)) = if g =? compVal then User else Computer.
Proof.
  unfold determineTurnOrder. rewrite parseInt_toString by (right; reflexivity). reflexivity.
Qed.

(** [ProbabilityCalculator.calculateProbabilities] (game.js, lines 44-61):
    the table is n by n; the diagonal keeps the number 0 the table is
    filled with; an off-diagonal entry is never that number 0 but a string:
    "NaN" exactly when one of the two dice is empty, and otherwise a
    [toFixed(4)] probability between 0 and 1 (0 to 10000 units of 10^-4). *)
Theorem calculateProbabilities_entries ds i j :
  (i < List.length ds)%nat -> (j < List.length ds)%nat ->
  List.length (calculateProbabilities ds) = List.length ds /\
  Forall (fun row => List.length row = List.length ds) (calculateProbabilities ds) /\
  exists c, cell i j (calculateProbabilities ds) = Some c /\
    (i = j -> c = GZero) /\
    (i <> j -> c <> GZero /\ (c = GNaN <-> nth i ds [] = [] \/ nth j ds [] = []) /\
               (forall k, c = GFixed k -> 0 <= k <= 10000)).
Proof. exact (gj_table_shape ds i j). Qed.

Lemma calculateProbabilities_entries_witness :
  (0 < List.length [die1; []; die3])%nat /\ (1 < List.length [die1; []; die3])%nat /\
  List.length (calculateProbabilities [die1; []; die3]) = List.length [die1; []; die3] /\
  Forall (fun row => List.length row = List.length [die1; []; die3])
         (calculateProbabilities [die1; []; die3]) /\
  exists c, cell 0 1 (calculateProbabilities [die1; []; die3]) = Some c /\
    (0%nat = 1%nat -> c = GZero) /\
    (0%nat <> 1%nat -> c <> GZero /\
               (c = GNaN <-> nth 0 [die1; []; die3] [] = [] \/ nth 1 [die1; []; die3] [] = []) /\
               (forall k, c = GFixed k -> 0 <= k <= 10000)).
Proof.
  split; [cbn; lia|]. split; [cbn; lia|].
  apply calculateProbabilities_entries; cbn; lia.
Defined.

(** part_000's [ProbabilityTable] (lines 52-86) with [calculateProbability]
    (lines 35-49): the table is n by n with the constant cell on the
    diagonal; off the diagonal the fraction is wins over |d1| * |d2| with
    wins <= total, and the percentage is "NaN" exactly when one die is empty
    and otherwise between 0.00 and 100.00. *)
Theorem probability_table_entries ds i j :
  (i < List.length ds)%nat -> (j < List.length ds)%nat ->
  List.length (probability_table ds) = List.length ds /\
  Forall (fun row => List.length row = List.length ds) (probability_table ds) /\
  exists c, cell i j (probability_table ds) = Some c /\
    (i = j -> c = PDiag) /\
    (i <> j -> exists r, c = PCell r /\
       fraction r = (fst (fraction r), List.length (nth i ds []) * List.length (nth j ds []))%nat /\
       (fst (fraction r) <= snd (fraction r))%nat /\
       (percentage r = None <-> nth i ds [] = [] \/ nth j ds [] = []) /\
       (forall p, percentage r = Some p -> 0 <= p <= 10000)).
Proof. exact (p0_table_shape ds i j). Qed.

Lemma probability_table_entries_witness :
  (2 < List.length [die1; die2; die3])%nat /\ (0 < List.length [die1; die2; die3])%nat /\
  List.length (probability_table [die1; die2; die3]) = List.length [die1; die2; die3] /\
  Forall (fun row => List.length row = List.length [die1; die2; die3])
         (probability_table [die1; die2; die3]) /\
  exists c, cell 2 0 (probability_table [die1; die2; die3]) = Some c /\
    (2%nat = 0%nat -> c = PDiag) /\
    (2%nat <> 0%nat -> exists r, c = PCell r /\
       fraction r = (fst (fraction r), List.length (nth 2 [die1; die2; die3] [])
                                       * List.length (nth 0 [die1; die2; die3] []))%nat /\
       (fst (fraction r) <= snd (fraction r))%nat /\
       (percentage r = None <-> nth 2 [die1; die2; die3] [] = [] \/ nth 0 [die1; die2; die3] [] = []) /\
       (forall p, percentage r = Some p -> 0 <= p <= 10000)).
Proof.
  split; [cbn; lia|]. split; [cbn; lia|].
  apply probability_table_entries; cbn; lia.
Defined.

(** [DiceParser.parseDice] (game.js, lines 184-215) returns dice exactly
    when there are at least three arguments and each splits into six tokens
    none of which is NaN; it then returns one die per argument, each of six
    values. *)
Theorem parseDice_accepts args :
  ((exists ds, parseDice args = Ok ds) <->
   (3 <= List.length args)%nat /\ Forall (fun a => die_ok a = true) args) /\
  (forall ds, parseDice args = Ok ds ->
   List.length ds = List.length args /\ Forall (fun d => List.length d = 6%nat) ds).
Proof.
  split; [split|].
  - intros [ds E]. apply parseDice_ok in E as (L & F & _). auto.
  - intros [L F]. exists (map die_values args). apply parseDice_ok. auto.
  - intros ds E. apply parseDice_ok in E as (_ & F & ->). split; [apply length_map|].
    apply Forall_map. apply (Forall_impl _ (P := fun a => die_ok a = true)); [|exact F].
    intros a Da. unfold die_ok in Da. apply andb_prop in Da as [_ Da].
    apply Nat.eqb_eq in Da. unfold die_values. rewrite length_map. exact Da.
Qed.

Lemma parseDice_accepts_witness :
  exists ds, parseDice ["2,2,4,4,9,9"; "1,1,6,6,8,8"; "3,3,5,5,7,7"]%string = Ok ds /\
    List.length ds = 3%nat /\ Forall (fun d => List.length d = 6%nat) ds.
Proof.
  assert (L : (3 <= List.length ["2,2,4,4,9,9"; "1,1,6,6,8,8"; "3,3,5,5,7,7"]%string)%nat)
    by (cbn; lia).
  assert (F : Forall (fun a => die_ok a = true) ["2,2,4,4,9,9"; "1,1,6,6,8,8"; "3,3,5,5,7,7"]%string)
    by (repeat constructor).
  destruct (proj2 (proj1 (parseDice_accepts ["2,2,4,4,9,9"; "1,1,6,6,8,8"; "3,3,5,5,7,7"]%string))
              (conj L F)) as [ds E].
  exists ds. split; [exact E|].
  exact (proj2 (parseDice_accepts ["2,2,4,4,9,9"; "1,1,6,6,8,8"; "3,3,5,5,7,7"]%string) ds E).
Defined.

(** [DiceParser.parseDice]: an error is "too few dice" exactly for fewer
    than three arguments; otherwise it names the first bad die (1-based):
    its first NaN token, or, when no token is NaN, that it has not six
    values. *)
Theorem parseDice_reports_first_bad_die args e :
  parseDice args = Err e ->
  ((List.length args < 3)%nat /\ e = TooFewDice) \/
  ((3 <= List.length args)%nat /\
   exists k a, nth_error args k = Some a /\ Forall (fun a => die_ok a = true) (firstn k args) /\
    ((exists pre t post, split_comma a = pre ++ t :: post /\
        Forall (fun t => isNaN t = false) pre /\ isNaN t = true /\ e = NonIntegerValue (S k) t) \/
     (forallb (fun t => negb (isNaN t)) (split_comma a) = true /\
      List.length (split_comma a) <> 6%nat /\ e = WrongValueCount (S k)))).
Proof. exact (parseDice_err args e). Qed.

Lemma parseDice_reports_first_bad_die_witness :
  parseDice ["2,2,4,4,9,9"; "1,1,6,6,8"; "3,3,5,5,7,a"]%string = Err (WrongValueCount 2) /\
  (((List.length ["2,2,4,4,9,9"; "1,1,6,6,8"; "3,3,5,5,7,a"]%string < 3)%nat /\
    WrongValueCount 2 = TooFewDice) \/
  ((3 <= List.length ["2,2,4,4,9,9"; "1,1,6,6,8"; "3,3,5,5,7,a"]%string)%nat /\
   exists k a, nth_error ["2,2,4,4,9,9"; "1,1,6,6,8"; "3,3,5,5,7,a"]%string k = Some a /\
    Forall (fun a => die_ok a = true) (firstn k ["2,2,4,4,9,9"; "1,1,6,6,8"; "3,3,5,5,7,a"]%string) /\
    ((exists pre t post, split_comma a = pre ++ t :: post /\
        Forall (fun t => isNaN t = false) pre /\ isNaN t = true /\
        WrongValueCount 2 = NonIntegerValue (S k) t) \/
     (forallb (fun t => negb (isNaN t)) (split_comma a) = true /\
      List.length (split_comma a) <> 6%nat /\ WrongValueCount 2 = WrongValueCount (S k))))).
Proof.
  split; [vm_compute; reflexivity|].
  apply parseDice_reports_first_bad_die. vm_compute. reflexivity.
Defined.



(** [DiceGame.userThrow] (game.js, lines 128-137): a throw that returns
    gives a face of the user's die (never undefined) and changes none of the
    dice. *)
Theorem userThrow_face H s face s' :
  userThrow H s = Ret face s' ->
  exists d x, userDice s = Some d /\ face = Some x /\ In x d /\
    dice s' = dice s /\ userDice s' = userDice s /\ computerDice s' = computerDice s.
Proof.
  intros E. pose proof (dframe_userThrow H _ _ _ E) as F.
  destruct (userDice s) as [d|] eqn:D.
  - rewrite (userThrow_body H s d D) in E.
    destruct (throw_face _ _ _ _ _ E) as (x & -> & Hx).
    exists d, x. destruct F as (F1 & F2 & F3). repeat split; (assumption || reflexivity).
  - unfold userThrow, bind, get in E. rewrite D in E. discriminate.
Qed.

Lemma userThrow_face_witness :
  exists face s',
    userThrow id_hmac (mkst ["4"%string] (zeros 36) [die3] (Some die1) (Some die2) 0 []) = Ret face s' /\
    exists d x, userDice (mkst ["4"%string] (zeros 36) [die3] (Some die1) (Some die2) 0 []) = Some d /\
      face = Some x /\ In x d /\ dice s' = [die3] /\ userDice s' = Some die1 /\
      computerDice s' = Some die2.
Proof.
  assert (E : exists face s', userThrow id_hmac
      (mkst ["4"%string] (zeros 36) [die3] (Some die1) (Some die2) 0 []) = Ret face s')
    by (vm_compute; do 2 eexists; reflexivity).
  destruct E as (face & s' & E). exists face, s'. split; [exact E|].
  exact (userThrow_face id_hmac _ face s' E).
Defined.

(** [DiceGame.computerThrow] (game.js, lines 139-148): a throw that returns
    gives a face of the computer's die (never undefined) and changes none of
    the dice. *)
Theorem computerThrow_face H s face s' :
  computerThrow H s = Ret face s' ->
  exists d x, computerDice s = Some d /\ face = Some x /\ In x d /\
    dice s' = dice s /\ userDice s' = userDice s /\ computerDice s' = computerDice s.
Proof.
  intros E. pose proof (dframe_computerThrow H _ _ _ E) as F.
  destruct (computerDice s) as [d|] eqn:D.
  - rewrite (computerThrow_body H s d D) in E.
    destruct (throw_face _ _ _ _ _ E) as (x & -> & Hx).
    exists d, x. destruct F as (F1 & F2 & F3). repeat split; (assumption || reflexivity).
  - unfold computerThrow, bind, get in E. rewrite D in E. discriminate.
Qed.

Lemma computerThrow_face_witness :
  exists face s',
    computerThrow id_hmac (mkst ["0"%string] (zeros 36) [die3] (Some die1) (Some die2) 0 []) = Ret face s' /\
    exists d x, computerDice (mkst ["0"%string] (zeros 36) [die3] (Some die1) (Some die2) 0 []) = Some d /\
      face = Some x /\ In x d /\ dice s' = [die3] /\ userDice s' = Some die1 /\
      computerDice s' = Some die2.
Proof.
  assert (E : exists face s', computerThrow id_hmac
      (mkst ["0"%string] (zeros 36) [die3] (Some die1) (Some die2) 0 []) = Ret face s')
    by (vm_compute; do 2 eexists; reflexivity).
  destruct E as (face & s' & E). exists face, s'. split; [exact E|].
  exact (computerThrow_face id_hmac _ face s' E).
Defined.
